(** * In-memory key store: identity names, identity histories, key maps

    A shallow embedding of [keystore.cpp]: the name sanitizer
    ([ParseSubNames]), the identity-ID derivation ([CleanName],
    [GetNameID]), the bounded per-identity history
    ([CIdentityWithHistory::UpdateIdentity]) and the guarded map accessors
    of [CBasicKeyStore] that the properties below talk about.

    Conventions.
    - [std::string] is [string]; a byte blob ([uint160], [uint256],
      [CScript]) is a [list byte]; [uint32_t] block heights are [N].
    - [std::map<K,V>] used only through find / operator[] / erase is a
      [gmap K V]; the height-ordered [std::map<uint32_t, CIdentity>] whose
      first and last entries are read is a strictly sorted association
      list.
    - A member function that mutates the store returns the result paired
      with the new store; reading through the end iterator of an empty map
      is undefined in C++ and is [None] here.
    - [CleanName] and [GetNameID] hash a range that they read through
      [c_str()] of a [std::string] already destroyed.  What such a read
      finds is not fixed by the program: it is a parameter without any
      property ([freed_c_str]), so that nothing is proved from its value.
    - Every operation runs under its [LOCK] from start to end, so it is
      one step on the store; the locks themselves are not modelled. *)

From Stdlib Require Import ZArith NArith Lia List.
From Stdlib.Strings Require Import Byte Ascii String.
From stdpp Require Import gmap strings list sorting.

Local Open Scope Z_scope.

(** ** Bytes as map keys *)

#[global] Instance byte_eq_dec : EqDecision byte := Byte.byte_eq_dec.
#[global] Instance byte_countable : Countable byte :=
  inj_countable Byte.to_N Byte.of_N Byte.of_to_N.

Abbreviation uint160 := (list byte) (only parsing).
Abbreviation uint256 := (list byte) (only parsing).
Abbreviation CScript := (list byte) (only parsing).
Abbreviation CIdentityID := (list byte) (only parsing).
Abbreviation CScriptID := (list byte) (only parsing).

(** ** Strings *)

Definition dquote : ascii := ascii_of_byte x22.

(** The nine characters of [invalidChars]: backslash, slash, colon,
    star, question mark, double quote, less-than, greater-than, bar. *)
Definition invalidChars : list ascii :=
  ["\"; "/"; ":"; "*"; "?"; dquote; "<"; ">"; "|"]%char.

Definition is_invalid (c : ascii) : bool := existsb (Ascii.eqb c) invalidChars.

(** First loop of [ParseSubNames]: every invalid character becomes ['_']. *)
Fixpoint replace_invalid (s : string) : string :=
  match s with
  | EmptyString => EmptyString
  | String c r => String (if is_invalid c then "_"%char else c) (replace_invalid r)
  end.

(** [boost::is_any_of] of dot and at-sign. *)
Definition is_separator (c : ascii) : bool :=
  Ascii.eqb c "."%char || Ascii.eqb c "@"%char.

(** [boost::split] with the default [token_compress_off]: one piece more
    than there are separators, empty pieces kept. *)
Fixpoint split_any (s : string) : list string :=
  match s with
  | EmptyString => [EmptyString]
  | String c r =>
      if is_separator c then EmptyString :: split_any r
      else match split_any r with
           | [] => [String c EmptyString]
           | piece :: pieces => String c piece :: pieces
           end
  end.

(** [std::tolower] in the C locale, as [boost::algorithm::to_lower_copy]
    applies it to every character. *)
Definition tolower (c : ascii) : ascii :=
  let n := nat_of_ascii c in
  if ((65 <=? n) && (n <=? 90))%nat then ascii_of_nat (n + 32) else c.

Fixpoint to_lower_copy (s : string) : string :=
  match s with
  | EmptyString => EmptyString
  | String c r => String (tolower c) (to_lower_copy r)
  end.

(** The range [p, p + strlen(p)) of [p = s.c_str()] while [s] is alive:
    the characters of [s] before its first NUL. *)
Fixpoint c_str (s : string) : string :=
  match s with
  | EmptyString => EmptyString
  | String c r => if Ascii.eqb c zero then EmptyString else String c (c_str r)
  end.

(** No NUL character anywhere in the string. *)
Fixpoint nul_free (s : string) : bool :=
  match s with
  | EmptyString => true
  | String c r => negb (Ascii.eqb c zero) && nul_free r
  end.

(** [base_blob::IsNull]: every byte is zero. *)
Definition IsNull (u : list byte) : bool := forallb (Byte.eqb x00) u.

(** The default-constructed [uint160]. *)
Definition uint160_null : list byte := repeat x00 20.

(** The three places that read a C string through a pointer into a
    destroyed temporary: the loop of [CleanName] at index [i], and the
    two overloads of [GetNameID] that take a name. *)
Inductive read_site :=
| AtCleanName (i : nat)
| AtGetNameID
| AtGetNameID_member.

(** [const char *idName = to_lower_copy(...).c_str();] leaves [idName]
    pointing into a string that is destroyed at the end of that
    declaration; the next statement hashes
    [idName, idName + strlen(idName)).  [freed_c_str site Name Parent s]
    stands for the characters that range holds, in the call with
    arguments [Name] and [Parent], at the place [site], where [s] is the
    lower-cased string that was destroyed.  Nothing is known of it,
    except that it is taken to be the same whenever the same call is
    made again: the properties of the store below use an identity ID
    only as a map key, and rest on two calls of [GetNameID] for one
    identity giving one key. *)
Class FreedReads := {
  freed_c_str : read_site -> string -> list byte -> string -> string
}.

(** [int] to [size_t] conversion on a 64-bit target. *)
Definition size_t_of_int (z : Z) : Z := z mod 2 ^ 64.

(** The fields of [CIdentity] that the key store reads. *)
Record CIdentity := { name : string; parent : list byte }.

(** [CIdentityWithHistory]: the two words given to its constructor and the
    height-ordered versions. *)
Record CIdentityWithHistory := {
  version : Z;
  flags : Z;
  ids : list (N * CIdentity)
}.

Definition set_ids (self : CIdentityWithHistory) (m : list (N * CIdentity))
  : CIdentityWithHistory :=
  {| version := version self; flags := flags self; ids := m |}.

(** [std::map::insert] on the ordered map: the pair goes to its place in
    key order, and nothing changes when the key is already present. *)
Fixpoint ids_insert (h : N) (v : CIdentity) (m : list (N * CIdentity))
  : list (N * CIdentity) :=
  match m with
  | [] => [(h, v)]
  | (k, w) :: r =>
      if (h <? k)%N then (h, v) :: m
      else if (h =? k)%N then m
      else (k, w) :: ids_insert h v r
  end.

(** Keys of the ordered map, in iteration order. *)
Definition heights (m : list (N * CIdentity)) : list N := map fst m.

(** Strictly increasing keys, as iteration over a [std::map] yields them. *)
Definition strictly_increasing (l : list N) : Prop := Sorted N.lt l.

(** *** External collaborators *)

(** The seed type; [HDSeed_IsNull] is its [IsNull()]. *)
Class SeedType := {
  HDSeed : Type;
  HDSeed_IsNull : HDSeed -> bool
}.

(** The Sapling key types with their derivations
    ([sk.expsk.full_viewing_key()], [fvk.in_viewing_key()]); the three
    that key a map are ordered, hence countable. *)
Class SaplingScheme := {
  SaplingExtendedSpendingKey : Type;
  SaplingFullViewingKey : Type;
  SaplingIncomingViewingKey : Type;
  SaplingPaymentAddress : Type;
  fvk_eq_dec :: EqDecision SaplingFullViewingKey;
  fvk_countable :: Countable SaplingFullViewingKey;
  ivk_eq_dec :: EqDecision SaplingIncomingViewingKey;
  ivk_countable :: Countable SaplingIncomingViewingKey;
  addr_eq_dec :: EqDecision SaplingPaymentAddress;
  addr_countable :: Countable SaplingPaymentAddress;
  full_viewing_key : SaplingExtendedSpendingKey -> SaplingFullViewingKey;
  in_viewing_key : SaplingFullViewingKey -> SaplingIncomingViewingKey
}.

(** The script-condition decoder and what [ScriptOrIdentityID] reads
    through it: [scr.IsPayToCryptoCondition(p)] with its out-parameter,
    [p.IsValid()], [p.evalCode], [p.vData], the constructor
    [CIdentity(p.vData[0])], [identity.IsValid()], the constants, and the
    hash-based [CScriptID(scr)]. *)
Class ScriptConditionDecoder := {
  COptCCParams : Type;
  IsPayToCryptoCondition : list byte -> bool * COptCCParams;
  COptCCParams_IsValid : COptCCParams -> bool;
  evalCode : COptCCParams -> Z;
  vData : COptCCParams -> list (list byte);
  EVAL_IDENTITY_PRIMARY : Z;
  CIdentity_from : list byte -> CIdentity;
  CIdentity_IsValid : CIdentity -> bool;
  CScriptID_of_script : list byte -> list byte;
  MAX_SCRIPT_ELEMENT_SIZE : nat
}.

(** [CIdentityWithHistory::IsValid()] and the constants [AddIdentity]
    passes to the constructor. *)
Class HistoryFormat := {
  CIdentityWithHistory_IsValid : CIdentityWithHistory -> bool;
  VERSION_CURRENT : Z;
  VALID : Z
}.

(** The transparent key types: [key.GetPubKey()] and [pubkey.GetID()]. *)
Class TransparentKeys := {
  CKey : Type;
  CPubKey : Type;
  CKeyID : Type;
  keyid_eq_dec :: EqDecision CKeyID;
  keyid_countable :: Countable CKeyID;
  CKey_GetPubKey : CKey -> CPubKey;
  CPubKey_GetID : CPubKey -> CKeyID
}.

(** The Sprout key types: [sk.address()], [sk.receiving_key()],
    [vk.address()], the member [vk.sk_enc], and the constructor of
    [ZCNoteDecryption] from a receiving key. *)
Class SproutScheme := {
  SproutSpendingKey : Type;
  SproutViewingKey : Type;
  SproutPaymentAddress : Type;
  ReceivingKey : Type;
  ZCNoteDecryption : Type;
  sprout_addr_eq_dec :: EqDecision SproutPaymentAddress;
  sprout_addr_countable :: Countable SproutPaymentAddress;
  sk_address : SproutSpendingKey -> SproutPaymentAddress;
  sk_receiving_key : SproutSpendingKey -> ReceivingKey;
  vk_address : SproutViewingKey -> SproutPaymentAddress;
  vk_sk_enc : SproutViewingKey -> ReceivingKey;
  ZCNoteDecryption_from : ReceivingKey -> ZCNoteDecryption
}.

(** [std::map::insert] of a pair: the map is left as it is when the key
    is present. *)
Definition map_emplace `{Countable K} {V : Type} (k : K) (v : V) (m : gmap K V)
  : gmap K V :=
  match m !! k with
  | Some _ => m
  | None => <[k := v]> m
  end.

(** The number of separators in a string, and strings all of whose
    characters pass a test. *)
Fixpoint count_separators (s : string) : nat :=
  match s with
  | EmptyString => O
  | String c r => ((if is_separator c then 1 else 0) + count_separators r)%nat
  end.

Fixpoint string_forall (P : ascii -> bool) (s : string) : bool :=
  match s with
  | EmptyString => true
  | String c r => P c && string_forall P r
  end.

(** Neither an invalid character nor a separator. *)
Definition plain_char (c : ascii) : bool := negb (is_invalid c) && negb (is_separator c).

(** ** The store *)

Section Store.

Context `{Seed : SeedType} `{Sapling : SaplingScheme}.

(** The members of [CBasicKeyStore] that the operations below read or
    write. *)
Record CBasicKeyStore := {
  hdSeed : HDSeed;
  mapScripts : gmap (list byte) (list byte);
  mapIdentities : gmap (list byte) CIdentityWithHistory;
  mapSaplingSpendingKeys : gmap SaplingFullViewingKey SaplingExtendedSpendingKey;
  mapSaplingFullViewingKeys : gmap SaplingIncomingViewingKey SaplingFullViewingKey;
  mapSaplingIncomingViewingKeys : gmap SaplingPaymentAddress SaplingIncomingViewingKey
}.

Definition set_hdSeed (ks : CBasicKeyStore) (v : HDSeed) : CBasicKeyStore :=
  {| hdSeed := v;
     mapScripts := mapScripts ks;
     mapIdentities := mapIdentities ks;
     mapSaplingSpendingKeys := mapSaplingSpendingKeys ks;
     mapSaplingFullViewingKeys := mapSaplingFullViewingKeys ks;
     mapSaplingIncomingViewingKeys := mapSaplingIncomingViewingKeys ks |}.

Definition set_mapScripts (ks : CBasicKeyStore) (m : gmap (list byte) (list byte))
  : CBasicKeyStore :=
  {| hdSeed := hdSeed ks;
     mapScripts := m;
     mapIdentities := mapIdentities ks;
     mapSaplingSpendingKeys := mapSaplingSpendingKeys ks;
     mapSaplingFullViewingKeys := mapSaplingFullViewingKeys ks;
     mapSaplingIncomingViewingKeys := mapSaplingIncomingViewingKeys ks |}.

Definition set_mapIdentities (ks : CBasicKeyStore)
           (m : gmap (list byte) CIdentityWithHistory) : CBasicKeyStore :=
  {| hdSeed := hdSeed ks;
     mapScripts := mapScripts ks;
     mapIdentities := m;
     mapSaplingSpendingKeys := mapSaplingSpendingKeys ks;
     mapSaplingFullViewingKeys := mapSaplingFullViewingKeys ks;
     mapSaplingIncomingViewingKeys := mapSaplingIncomingViewingKeys ks |}.

Definition set_mapSaplingSpendingKeys (ks : CBasicKeyStore)
           (m : gmap SaplingFullViewingKey SaplingExtendedSpendingKey) : CBasicKeyStore :=
  {| hdSeed := hdSeed ks;
     mapScripts := mapScripts ks;
     mapIdentities := mapIdentities ks;
     mapSaplingSpendingKeys := m;
     mapSaplingFullViewingKeys := mapSaplingFullViewingKeys ks;
     mapSaplingIncomingViewingKeys := mapSaplingIncomingViewingKeys ks |}.

Definition set_mapSaplingFullViewingKeys (ks : CBasicKeyStore)
           (m : gmap SaplingIncomingViewingKey SaplingFullViewingKey) : CBasicKeyStore :=
  {| hdSeed := hdSeed ks;
     mapScripts := mapScripts ks;
     mapIdentities := mapIdentities ks;
     mapSaplingSpendingKeys := mapSaplingSpendingKeys ks;
     mapSaplingFullViewingKeys := m;
     mapSaplingIncomingViewingKeys := mapSaplingIncomingViewingKeys ks |}.

Definition set_mapSaplingIncomingViewingKeys (ks : CBasicKeyStore)
           (m : gmap SaplingPaymentAddress SaplingIncomingViewingKey) : CBasicKeyStore :=
  {| hdSeed := hdSeed ks;
     mapScripts := mapScripts ks;
     mapIdentities := mapIdentities ks;
     mapSaplingSpendingKeys := mapSaplingSpendingKeys ks;
     mapSaplingFullViewingKeys := mapSaplingFullViewingKeys ks;
     mapSaplingIncomingViewingKeys := m |}.

(** A store with every map empty, around a given seed slot. *)
Definition empty_store (seed0 : HDSeed) : CBasicKeyStore :=
  {| hdSeed := seed0;
     mapScripts := ∅;
     mapIdentities := ∅;
     mapSaplingSpendingKeys := ∅;
     mapSaplingFullViewingKeys := ∅;
     mapSaplingIncomingViewingKeys := ∅ |}.

End Store.

(** ** The other members of the store *)

Section OtherMembers.

Context `{Keys : TransparentKeys} `{Sprout : SproutScheme}.

(** The members of [CBasicKeyStore] for transparent keys, watch-only
    scripts and Sprout keys. *)
Record CBasicKeyStore_other := {
  mapKeys : gmap CKeyID CKey;
  setWatchOnly : gset (list byte);
  mapSproutSpendingKeys : gmap SproutPaymentAddress SproutSpendingKey;
  mapSproutViewingKeys : gmap SproutPaymentAddress SproutViewingKey;
  mapNoteDecryptors : gmap SproutPaymentAddress ZCNoteDecryption
}.

Definition set_mapKeys (ko : CBasicKeyStore_other) (m : gmap CKeyID CKey)
  : CBasicKeyStore_other :=
  {| mapKeys := m;
     setWatchOnly := setWatchOnly ko;
     mapSproutSpendingKeys := mapSproutSpendingKeys ko;
     mapSproutViewingKeys := mapSproutViewingKeys ko;
     mapNoteDecryptors := mapNoteDecryptors ko |}.

Definition set_setWatchOnly (ko : CBasicKeyStore_other) (w : gset (list byte))
  : CBasicKeyStore_other :=
  {| mapKeys := mapKeys ko;
     setWatchOnly := w;
     mapSproutSpendingKeys := mapSproutSpendingKeys ko;
     mapSproutViewingKeys := mapSproutViewingKeys ko;
     mapNoteDecryptors := mapNoteDecryptors ko |}.

(** The three Sprout maps at once. *)
Definition set_sprout (ko : CBasicKeyStore_other)
           (sks : gmap SproutPaymentAddress SproutSpendingKey)
           (vks : gmap SproutPaymentAddress SproutViewingKey)
           (nds : gmap SproutPaymentAddress ZCNoteDecryption) : CBasicKeyStore_other :=
  {| mapKeys := mapKeys ko;
     setWatchOnly := setWatchOnly ko;
     mapSproutSpendingKeys := sks;
     mapSproutViewingKeys := vks;
     mapNoteDecryptors := nds |}.

Definition empty_other : CBasicKeyStore_other :=
  {| mapKeys := ∅;
     setWatchOnly := ∅;
     mapSproutSpendingKeys := ∅;
     mapSproutViewingKeys := ∅;
     mapNoteDecryptors := ∅ |}.

End OtherMembers.

(** ** Sample instantiation of the external primitives

    The digest functions, the seed type and the script-condition decoder
    are not part of [keystore.cpp].  The development is parametric in
    them; the closed examples at the end of the file run the code on the
    instances of this module. *)
Module Sample.

Definition byte_of_N (n : N) : byte :=
  match Byte.of_N n with Some b => b | None => x00 end.

(** [w] little-endian bytes of [n]. *)
Fixpoint le_bytes (w : nat) (n : N) : list byte :=
  match w with
  | O => []
  | S w' => byte_of_N (n mod 256)%N :: le_bytes w' (n / 256)%N
  end.

(** A polynomial checksum on [8 * w] bits. *)
Definition poly (w : nat) (bs : list byte) : N :=
  fold_left (fun acc b => ((acc * 257 + Byte.to_N b + 1) mod 2 ^ (8 * N.of_nat w))%N)
            bs 0%N.

Definition H256 (bs : list byte) : list byte := le_bytes 32 (poly 32 bs).
Definition H160 (bs : list byte) : list byte := le_bytes 20 (poly 20 bs).

(** A read that finds the characters of the destroyed string still in
    place. *)
#[export] Instance freed : FreedReads := {|
  freed_c_str := fun _ _ _ s => c_str s
|}.

(** A read that finds a NUL first, an empty C string. *)
Definition freed_empty : FreedReads := {|
  freed_c_str := fun _ _ _ _ => EmptyString
|}.

(** The seed as a raw byte vector, null when empty. *)
#[export] Instance seed : SeedType := {|
  HDSeed := list byte;
  HDSeed_IsNull := fun s => match s with [] => true | _ => false end
|}.

(** Sapling keys as numbers with two injective derivations. *)
#[export] Instance sapling : SaplingScheme := {|
  SaplingExtendedSpendingKey := N;
  SaplingFullViewingKey := N;
  SaplingIncomingViewingKey := N;
  SaplingPaymentAddress := N;
  full_viewing_key := fun sk => (2 * sk + 1)%N;
  in_viewing_key := fun fvk => (fvk + 7)%N
|}.

(** A decoder that reads a condition off scripts of the form
    [xcc :: evalCode :: payload]: valid when the payload is not empty,
    with the payload as its only data element; the identity built from
    a data element has its characters as name and a null parent, and is
    valid when the name is not empty. *)
#[export] Instance decoder : ScriptConditionDecoder := {|
  COptCCParams := bool * Z * list (list byte);
  IsPayToCryptoCondition := fun scr =>
    match scr with
    | xcc :: code :: payload =>
        (true, (negb (length payload =? 0)%nat, Z.of_N (Byte.to_N code), [payload]))
    | _ => (false, (false, 0, []))
    end;
  COptCCParams_IsValid := fun p => p.1.1;
  evalCode := fun p => p.1.2;
  vData := fun p => p.2;
  EVAL_IDENTITY_PRIMARY := 1;
  CIdentity_from := fun d =>
    {| name := string_of_list_byte d; parent := uint160_null |};
  CIdentity_IsValid := fun i => negb (String.length (name i) =? 0)%nat;
  CScriptID_of_script := H160;
  MAX_SCRIPT_ELEMENT_SIZE := 520
|}.

#[export] Instance format : HistoryFormat := {|
  CIdentityWithHistory_IsValid := fun r => (version r =? 1) && (Z.land (flags r) 1 =? 1);
  VERSION_CURRENT := 1;
  VALID := 1
|}.

(** Data for the examples. *)
Definition store0 : CBasicKeyStore := empty_store ([] : list byte).

Definition alice : CIdentity := {| name := "Alice.Bob"; parent := uint160_null |}.
Definition carol : CIdentity := {| name := "carol"; parent := uint160_null |}.
Definition txid : list byte := repeat x01 32.

Definition two_versions : CIdentityWithHistory :=
  {| version := 1; flags := 1; ids := [(100%N, alice); (105%N, alice)] |}.

Definition three_versions : CIdentityWithHistory :=
  {| version := 1; flags := 1; ids := [(1%N, alice); (2%N, alice); (3%N, alice)] |}.

(** Sixty-four characters, the longest label that is kept whole when
    the maximum is 65. *)
Definition long_label : string := string_of_list_ascii (repeat "a"%char 64).

Definition name_x : string := "leaf." +:+ long_label +:+ "x".
Definition name_y : string := "leaf." +:+ long_label +:+ "yz".

(** A script that the sample decoder reads as an identity-primary
    condition for the identity named [Alice.Bob]. *)
Definition alice_script : list byte :=
  xcc :: x01 :: list_byte_of_string "Alice.Bob".

(** Transparent keys as numbers: the public key is the double of the
    key, its ID the public key modulo 1000. *)
#[export] Instance keys : TransparentKeys := {|
  CKey := N;
  CPubKey := N;
  CKeyID := N;
  CKey_GetPubKey := fun k => (2 * k)%N;
  CPubKey_GetID := fun pk => (pk mod 1000)%N
|}.

(** Sprout keys as numbers; a spending key and the viewing key derived
    from it share their address and their receiving key. *)
#[export] Instance sprout : SproutScheme := {|
  SproutSpendingKey := N;
  SproutViewingKey := N;
  SproutPaymentAddress := N;
  ReceivingKey := N;
  ZCNoteDecryption := N;
  sk_address := fun sk => (sk mod 100)%N;
  sk_receiving_key := fun sk => (sk + 1)%N;
  vk_address := fun vk => (vk mod 100)%N;
  vk_sk_enc := fun vk => (vk + 2)%N;
  ZCNoteDecryption_from := fun rk => (3 * rk)%N
|}.

Definition other0 : CBasicKeyStore_other := empty_other.

(** The script of [alice_script] with its payload in capitals. *)
Definition alice_script_caps : list byte :=
  xcc :: x01 :: list_byte_of_string "ALICE.BOB".

End Sample.


Section KeyStore.

(** [Hash]: the 256-bit digest of a byte range; [Hash160]: the 160-bit
    one.  [KOMODO_ASSETCHAIN_MAXLEN] is an [int] macro. *)
Variable Hash : list byte -> list byte.
Variable Hash160 : list byte -> list byte.
Variable KOMODO_ASSETCHAIN_MAXLEN : Z.
Context `{Freed : FreedReads}.

(** [KOMODO_ASSETCHAIN_MAXLEN - 1] where it meets a [size_t]. *)
Definition label_cut : Z := size_t_of_int (KOMODO_ASSETCHAIN_MAXLEN - 1).

(** Second loop of [ParseSubNames], one piece. *)
Definition truncate_label (s : string) : string :=
  if label_cut <? Z.of_nat (String.length s)
  then String.substring 0 (Z.to_nat label_cut) s
  else s.

Definition ParseSubNames (Name : string) : list string :=
  map truncate_label (split_any (replace_invalid Name)).

(** [Hash(idName, idName + strlen(idName))], where [idName] was taken
    from the destroyed lower-cased copy of [s]. *)
Definition hash_idName (site : read_site) (Name : string) (Parent : list byte)
           (s : string) : list byte :=
  Hash (list_byte_of_string (freed_c_str site Name Parent (to_lower_copy s))).

(** The body shared by the loop of [CleanName] and by [GetNameID]: in
    the call with arguments [Name] and [Parent], at [site], for the
    string [s]. *)
Definition id_hash (site : read_site) (Name : string) (Parent : list byte)
           (s : string) : list byte :=
  if IsNull Parent then hash_idName site Name Parent s
  else Hash (Parent ++ hash_idName site Name Parent s).

(** [for (int i = subNames.size() - 1; i > 0; i--)], entered with [i]. *)
Fixpoint CleanName_loop (Name : string) (subNames : list string) (i : nat)
         (Parent : list byte) : list byte :=
  match i with
  | O => Parent
  | S i' =>
      let idHash := id_hash (AtCleanName i) Name Parent (nth i subNames EmptyString) in
      CleanName_loop Name subNames i' (Hash160 idHash)
  end.

(** [CIdentity::CleanName]: the returned string and the final value of
    the in-out argument [Parent]. *)
Definition CleanName (Name : string) (Parent : list byte) : string * list byte :=
  let subNames := ParseSubNames Name in
  if (length subNames =? 0)%nat then (EmptyString, Parent)
  else (nth 0 subNames EmptyString,
        CleanName_loop Name subNames (length subNames - 1) Parent).

(** [CIdentity::GetNameID(const std::string &Name, const uint160 &parent)] *)
Definition GetNameID (Name : string) (parent : list byte) : list byte :=
  let newParent := parent in
  let '(cleanName, newParent) := CleanName Name newParent in
  let idHash := id_hash AtGetNameID Name parent Name in
  Hash160 idHash.

(** [CIdentity::GetNameID(const std::string &Name) const] *)
Definition CIdentity_GetNameID_of (self : CIdentity) (Name : string) : list byte :=
  let newLevel := parent self in
  let '(cleanName, newLevel) := CleanName Name newLevel in
  let idHash := id_hash AtGetNameID_member Name (parent self) Name in
  Hash160 idHash.

(** [CIdentity::GetNameID() const] *)
Definition CIdentity_GetNameID (self : CIdentity) : list byte :=
  CIdentity_GetNameID_of self (name self).

(** *** The fold of the specification

    One step of the accumulation, for a given digest of a label, and
    the right-to-left fold over the labels after the leaf. *)
Definition fold_step (digest_of : string -> list byte)
           (parent : list byte) (label : string) : list byte :=
  let digest := digest_of label in
  let idHash := if IsNull parent then digest else Hash (parent ++ digest) in
  Hash160 idHash.

Definition cleanName_fold (digest_of : string -> list byte)
           (name : string) (parent : list byte) : string * list byte :=
  match ParseSubNames name with
  | [] => (EmptyString, parent)
  | leaf :: ancestors =>
      (leaf, fold_right (fun label acc => fold_step digest_of acc label) parent ancestors)
  end.

(** The digest as the specification words it: the hash of the
    lower-cased label. *)
Definition label_digest (label : string) : list byte :=
  Hash (list_byte_of_string (to_lower_copy label)).

Definition cleanName_spec : string -> list byte -> string * list byte :=
  cleanName_fold label_digest.

(** The reads as they would be with the temporaries kept alive: each
    finds the C string of the string it was taken from.  The digest of a
    label is then the hash of its lower-cased C string. *)
Definition reads_intact : Prop :=
  forall (site : read_site) (Name : string) (Parent : list byte) (s : string),
    freed_c_str site Name Parent s = c_str s.

Definition digest_c_str (label : string) : list byte :=
  Hash (list_byte_of_string (c_str (to_lower_copy label))).

(** The labels before truncation, and agreement of two labels up to the
    cutoff. *)
Definition raw_labels (Name : string) : list string :=
  split_any (replace_invalid Name).

Definition agree_to_cut (a b : string) : Prop :=
  String.substring 0 (Z.to_nat label_cut) a = String.substring 0 (Z.to_nat label_cut) b.

(** ** The per-identity history *)

(** [CIdentityWithHistory::UpdateIdentity].  [ids.begin()] and
    [ids.rbegin()] are dereferenced without a check: on an empty map the
    call has no defined result. *)
Definition CIdentityWithHistory_UpdateIdentity
           (self : CIdentityWithHistory) (identity : CIdentity)
           (txId : list byte) (blockHeight : N)
  : option (bool * CIdentityWithHistory) :=
  if (length (ids self) =? 1)%nat then
    match head (ids self) with
    | Some (first, _) =>
        if negb (blockHeight =? first)%N
        then Some (true, set_ids self (ids_insert blockHeight identity (ids self)))
        else Some (true, self)
    | None => None
    end
  else
    match head (ids self) with
    | Some (first, _) =>
        if (first <? blockHeight)%N then
          match last (ids self) with
          | Some (final, _) =>
              if negb (blockHeight =? final)%N
              then Some (true, set_ids self
                                 (ids_insert blockHeight identity (tail (ids self))))
              else Some (true, self)
          | None => None
          end
        else Some (false, self)
    | None => None
    end.

(** A run of updates on one history, stopping at an undefined call. *)
Fixpoint update_all (self : CIdentityWithHistory)
         (calls : list (CIdentity * list byte * N)) : option CIdentityWithHistory :=
  match calls with
  | [] => Some self
  | (identity, txId, blockHeight) :: rest =>
      match CIdentityWithHistory_UpdateIdentity self identity txId blockHeight with
      | Some (_, self') => update_all self' rest
      | None => None
      end
  end.

(** ** The operations of the store *)

Context `{Seed : SeedType} `{Sapling : SaplingScheme}
        `{Decoder : ScriptConditionDecoder} `{Format : HistoryFormat}.

(** *** The seed slot *)

Definition SetHDSeed (ks : CBasicKeyStore) (seed : HDSeed) : bool * CBasicKeyStore :=
  if negb (HDSeed_IsNull (hdSeed ks)) then (false, ks)
  else (true, set_hdSeed ks seed).

Definition HaveHDSeed (ks : CBasicKeyStore) : bool :=
  negb (HDSeed_IsNull (hdSeed ks)).

(** [None] is the [false] return; [Some s] is [true] with [seedOut = s]. *)
Definition GetHDSeed (ks : CBasicKeyStore) : option HDSeed :=
  if HDSeed_IsNull (hdSeed ks) then None else Some (hdSeed ks).

(** A run of [SetHDSeed] calls: the results in call order and the final
    store. *)
Fixpoint SetHDSeed_run (ks : CBasicKeyStore) (seeds : list HDSeed)
  : list bool * CBasicKeyStore :=
  match seeds with
  | [] => ([], ks)
  | seed :: rest =>
      let '(ok, ks1) := SetHDSeed ks seed in
      let '(oks, ks2) := SetHDSeed_run ks1 rest in
      (ok :: oks, ks2)
  end.

(** *** Redeem scripts *)

Definition ScriptOrIdentityID (scr : list byte) : list byte :=
  let '(isCC, p) := IsPayToCryptoCondition scr in
  if isCC && COptCCParams_IsValid p && (evalCode p =? EVAL_IDENTITY_PRIMARY)
     && negb (length (vData p) =? 0)%nat
     && CIdentity_IsValid (CIdentity_from (nth 0 (vData p) []))
  then CIdentity_GetNameID (CIdentity_from (nth 0 (vData p) []))
  else CScriptID_of_script scr.

Definition AddCScript (ks : CBasicKeyStore) (redeemScript : list byte)
  : bool * CBasicKeyStore :=
  if (MAX_SCRIPT_ELEMENT_SIZE <? length redeemScript)%nat then (false, ks)
  else (true, set_mapScripts ks
                (<[ScriptOrIdentityID redeemScript := redeemScript]> (mapScripts ks))).

Definition HaveCScript (ks : CBasicKeyStore) (hash : list byte) : bool :=
  bool_decide (is_Some (mapScripts ks !! hash)).

Definition GetCScript (ks : CBasicKeyStore) (hash : list byte) : option (list byte) :=
  mapScripts ks !! hash.

(** What the decoder reports about a script, in the words of the
    specification: the well-formed identity of a valid identity-primary
    condition, if the script encodes one. *)
Definition identity_primary_condition (scr : list byte) : option CIdentity :=
  let '(isCC, p) := IsPayToCryptoCondition scr in
  if negb isCC then None
  else if negb (COptCCParams_IsValid p) then None
  else if negb (evalCode p =? EVAL_IDENTITY_PRIMARY) then None
  else match vData p with
       | [] => None
       | d :: _ => if CIdentity_IsValid (CIdentity_from d) then Some (CIdentity_from d) else None
       end.

(** *** Identities *)

Definition HaveIdentity (ks : CBasicKeyStore) (idID : list byte) : bool :=
  bool_decide (is_Some (mapIdentities ks !! idID)).

(** The result of the inner update is dropped; an inner call without a
    defined result leaves the outer one without one. *)
Definition UpdateIdentity (ks : CBasicKeyStore) (identity : CIdentity)
           (txId : list byte) (blockHeight : N) : option (bool * CBasicKeyStore) :=
  match mapIdentities ks !! CIdentity_GetNameID identity with
  | None => Some (false, ks)
  | Some history =>
      match CIdentityWithHistory_UpdateIdentity history identity txId blockHeight with
      | Some (_, history') =>
          Some (true, set_mapIdentities ks
                        (<[CIdentity_GetNameID identity := history']> (mapIdentities ks)))
      | None => None
      end
  end.

Definition AddIdentity (ks : CBasicKeyStore) (identity : CIdentity)
           (txId : list byte) (blockHeight : N) : bool * CBasicKeyStore :=
  if bool_decide (is_Some (mapIdentities ks !! CIdentity_GetNameID identity))
  then (false, ks)
  else
    let idWithHistory :=
      {| version := VERSION_CURRENT; flags := VALID; ids := [(blockHeight, identity)] |} in
    (true, set_mapIdentities ks
             (<[CIdentity_GetNameID identity := idWithHistory]> (mapIdentities ks))).

Definition RemoveIdentity (ks : CBasicKeyStore) (idID : list byte)
  : bool * CBasicKeyStore :=
  (true, set_mapIdentities ks (delete idID (mapIdentities ks))).

Definition GetIdentityAndHistory (ks : CBasicKeyStore) (idID : list byte)
  : option CIdentityWithHistory :=
  mapIdentities ks !! idID.

Definition AddUpdateIdentityAndHistory (ks : CBasicKeyStore)
           (idWithHistory : CIdentityWithHistory) : bool * CBasicKeyStore :=
  if CIdentityWithHistory_IsValid idWithHistory
     && negb (length (ids idWithHistory) =? 0)%nat
  then
    match head (ids idWithHistory) with
    | Some (_, earliest) =>
        (true, set_mapIdentities ks
                 (<[CIdentity_GetNameID earliest := idWithHistory]> (mapIdentities ks)))
    | None => (true, ks)
    end
  else (true, ks).

(** The four mutators of the identity map as one call type, and a run
    of calls; a run has no result once a call has none. *)
Inductive identity_call :=
| CallAddIdentity (identity : CIdentity) (txId : list byte) (blockHeight : N)
| CallUpdateIdentity (identity : CIdentity) (txId : list byte) (blockHeight : N)
| CallRemoveIdentity (idID : list byte)
| CallAddUpdateIdentityAndHistory (idWithHistory : CIdentityWithHistory).

Definition do_call (ks : CBasicKeyStore) (c : identity_call) : option CBasicKeyStore :=
  match c with
  | CallAddIdentity identity txId h => Some (snd (AddIdentity ks identity txId h))
  | CallUpdateIdentity identity txId h => snd <$> UpdateIdentity ks identity txId h
  | CallRemoveIdentity idID => Some (snd (RemoveIdentity ks idID))
  | CallAddUpdateIdentityAndHistory r => Some (snd (AddUpdateIdentityAndHistory ks r))
  end.

Fixpoint run_calls (ks : CBasicKeyStore) (cs : list identity_call)
  : option CBasicKeyStore :=
  match cs with
  | [] => Some ks
  | c :: rest =>
      match do_call ks c with
      | Some ks' => run_calls ks' rest
      | None => None
      end
  end.

(** The records a run hands to [AddUpdateIdentityAndHistory] hold at
    most two versions each. *)
Definition call_small (c : identity_call) : Prop :=
  match c with
  | CallAddUpdateIdentityAndHistory r => (length (ids r) <= 2)%nat
  | _ => True
  end.

(** *** Sapling keys *)

Definition AddSaplingIncomingViewingKey (ks : CBasicKeyStore)
           (ivk : SaplingIncomingViewingKey) (addr : SaplingPaymentAddress)
  : bool * CBasicKeyStore :=
  (true, set_mapSaplingIncomingViewingKeys ks
           (<[addr := ivk]> (mapSaplingIncomingViewingKeys ks))).

Definition AddSaplingFullViewingKey (ks : CBasicKeyStore)
           (fvk : SaplingFullViewingKey) (defaultAddr : SaplingPaymentAddress)
  : bool * CBasicKeyStore :=
  let ivk := in_viewing_key fvk in
  let ks1 := set_mapSaplingFullViewingKeys ks
               (<[ivk := fvk]> (mapSaplingFullViewingKeys ks)) in
  AddSaplingIncomingViewingKey ks1 ivk defaultAddr.

Definition AddSaplingSpendingKey (ks : CBasicKeyStore)
           (sk : SaplingExtendedSpendingKey) (defaultAddr : SaplingPaymentAddress)
  : bool * CBasicKeyStore :=
  let fvk := full_viewing_key sk in
  let '(ok, ks1) := AddSaplingFullViewingKey ks fvk defaultAddr in
  if negb ok then (false, ks1)
  else (true, set_mapSaplingSpendingKeys ks1
                (<[fvk := sk]> (mapSaplingSpendingKeys ks1))).

Definition GetSaplingIncomingViewingKey (ks : CBasicKeyStore)
           (addr : SaplingPaymentAddress) : option SaplingIncomingViewingKey :=
  mapSaplingIncomingViewingKeys ks !! addr.

Definition GetSaplingFullViewingKey (ks : CBasicKeyStore)
           (ivk : SaplingIncomingViewingKey) : option SaplingFullViewingKey :=
  mapSaplingFullViewingKeys ks !! ivk.

(** Modelled from the spec: [GetSaplingSpendingKey] is defined in the
    header, not in [keystore.cpp].  The specification has the last link
    of the chain go from the full viewing key to the spending key stored
    under it, and fail when that link is missing. *)
Definition GetSaplingSpendingKey (ks : CBasicKeyStore)
           (fvk : SaplingFullViewingKey) : option SaplingExtendedSpendingKey :=
  mapSaplingSpendingKeys ks !! fvk.

(** The short-circuit conjunction of the three lookups. *)
Definition GetSaplingExtendedSpendingKey (ks : CBasicKeyStore)
           (addr : SaplingPaymentAddress) : option SaplingExtendedSpendingKey :=
  match GetSaplingIncomingViewingKey ks addr with
  | None => None
  | Some ivk =>
      match GetSaplingFullViewingKey ks ivk with
      | None => None
      | Some fvk => GetSaplingSpendingKey ks fvk
      end
  end.

(** ** The remaining operations *)

Context `{Keys : TransparentKeys} `{Sprout : SproutScheme}.

(** *** Sapling membership tests *)

Definition HaveSaplingFullViewingKey (ks : CBasicKeyStore)
           (ivk : SaplingIncomingViewingKey) : bool :=
  bool_decide (is_Some (mapSaplingFullViewingKeys ks !! ivk)).

Definition HaveSaplingIncomingViewingKey (ks : CBasicKeyStore)
           (addr : SaplingPaymentAddress) : bool :=
  bool_decide (is_Some (mapSaplingIncomingViewingKeys ks !! addr)).

(** *** Transparent keys *)

Definition AddKeyPubKey (ko : CBasicKeyStore_other) (key : CKey) (pubkey : CPubKey)
  : bool * CBasicKeyStore_other :=
  (true, set_mapKeys ko (<[CPubKey_GetID pubkey := key]> (mapKeys ko))).

(** [CKeyStore::AddKey], which goes through the virtual [AddKeyPubKey]. *)
Definition AddKey (ko : CBasicKeyStore_other) (key : CKey)
  : bool * CBasicKeyStore_other :=
  AddKeyPubKey ko key (CKey_GetPubKey key).

(** [CKeyStore::GetPubKey], over the virtual [GetKey] of the store it is
    called on. *)
Definition GetPubKey (GetKey : CBasicKeyStore_other -> CKeyID -> option CKey)
           (ko : CBasicKeyStore_other) (address : CKeyID) : option CPubKey :=
  match GetKey ko address with
  | None => None
  | Some key => Some (CKey_GetPubKey key)
  end.

(** *** Watch-only scripts *)

Definition AddWatchOnly (ko : CBasicKeyStore_other) (dest : list byte)
  : bool * CBasicKeyStore_other :=
  (true, set_setWatchOnly ko ({[dest]} ∪ setWatchOnly ko)).

Definition RemoveWatchOnly (ko : CBasicKeyStore_other) (dest : list byte)
  : bool * CBasicKeyStore_other :=
  (true, set_setWatchOnly ko (setWatchOnly ko ∖ {[dest]})).

(** [HaveWatchOnly(const CScript &dest)] *)
Definition HaveWatchOnly (ko : CBasicKeyStore_other) (dest : list byte) : bool :=
  bool_decide (dest ∈ setWatchOnly ko).

(** [HaveWatchOnly()] *)
Definition HaveWatchOnly_any (ko : CBasicKeyStore_other) : bool :=
  negb (bool_decide (setWatchOnly ko = ∅)).

(** *** Sprout keys *)

Definition AddSproutSpendingKey (ko : CBasicKeyStore_other) (sk : SproutSpendingKey)
  : bool * CBasicKeyStore_other :=
  let address := sk_address sk in
  (true, set_sprout ko
           (<[address := sk]> (mapSproutSpendingKeys ko))
           (mapSproutViewingKeys ko)
           (map_emplace address (ZCNoteDecryption_from (sk_receiving_key sk))
                        (mapNoteDecryptors ko))).

Definition AddSproutViewingKey (ko : CBasicKeyStore_other) (vk : SproutViewingKey)
  : bool * CBasicKeyStore_other :=
  let address := vk_address vk in
  (true, set_sprout ko
           (mapSproutSpendingKeys ko)
           (<[address := vk]> (mapSproutViewingKeys ko))
           (map_emplace address (ZCNoteDecryption_from (vk_sk_enc vk))
                        (mapNoteDecryptors ko))).

Definition RemoveSproutViewingKey (ko : CBasicKeyStore_other) (vk : SproutViewingKey)
  : bool * CBasicKeyStore_other :=
  (true, set_sprout ko
           (mapSproutSpendingKeys ko)
           (delete (vk_address vk) (mapSproutViewingKeys ko))
           (mapNoteDecryptors ko)).

Definition HaveSproutViewingKey (ko : CBasicKeyStore_other)
           (address : SproutPaymentAddress) : bool :=
  bool_decide (is_Some (mapSproutViewingKeys ko !! address)).

Definition GetSproutViewingKey (ko : CBasicKeyStore_other)
           (address : SproutPaymentAddress) : option SproutViewingKey :=
  mapSproutViewingKeys ko !! address.

(** * Properties *)

(** ** Strings and labels *)

Lemma split_any_nonempty (s : string) : split_any s <> [].
Proof.
  destruct s as [|c r]; simpl; [done|].
  destruct (is_separator c); [done|].
  by destruct (split_any r).
Qed.

Lemma ParseSubNames_nonempty (Name : string) : ParseSubNames Name <> [].
Proof.
  unfold ParseSubNames. intros H.
  apply map_eq_nil in H. by apply split_any_nonempty in H.
Qed.

Lemma substring_0_length (n : nat) (s : string) :
  String.length (String.substring 0 n s) = Nat.min n (String.length s).
Proof.
  revert n. induction s as [|c r IH]; intros [|n]; simpl; auto.
Qed.

Lemma substring_0_all (n : nat) (s : string) :
  (String.length s <= n)%nat -> String.substring 0 n s = s.
Proof.
  revert n. induction s as [|c r IH]; intros [|n] H; simpl in *; try done; try lia.
  f_equal. apply IH. lia.
Qed.

Lemma label_cut_nonneg : 0 <= label_cut.
Proof. unfold label_cut, size_t_of_int. apply Z.mod_pos_bound. lia. Qed.

Lemma label_cut_small :
  1 <= KOMODO_ASSETCHAIN_MAXLEN <= 2 ^ 64 -> label_cut = KOMODO_ASSETCHAIN_MAXLEN - 1.
Proof. intros H. unfold label_cut, size_t_of_int. apply Z.mod_small. lia. Qed.

(** Truncation keeps the first [label_cut] characters, whatever the
    length of the piece. *)
Lemma truncate_label_substring (s : string) :
  truncate_label s = String.substring 0 (Z.to_nat label_cut) s.
Proof.
  unfold truncate_label. destruct (Z.ltb_spec label_cut (Z.of_nat (String.length s))); [done|].
  symmetry. apply substring_0_all. pose proof label_cut_nonneg. lia.
Qed.

Lemma truncate_label_length (s : string) :
  Z.of_nat (String.length (truncate_label s)) <= label_cut.
Proof.
  rewrite truncate_label_substring, substring_0_length.
  pose proof label_cut_nonneg. lia.
Qed.

Lemma truncate_label_agree (a b : string) :
  agree_to_cut a b -> truncate_label a = truncate_label b.
Proof. unfold agree_to_cut. by rewrite !truncate_label_substring. Qed.

Lemma ParseSubNames_agree (n1 n2 : string) :
  Forall2 agree_to_cut (raw_labels n1) (raw_labels n2) ->
  ParseSubNames n1 = ParseSubNames n2.
Proof.
  unfold ParseSubNames, raw_labels.
  induction 1 as [|a b la lb Hab _ IH]; simpl; [done|].
  by rewrite (truncate_label_agree a b Hab), IH.
Qed.

Lemma ParseSubNames_length_bound (Name label : string) :
  In label (ParseSubNames Name) -> Z.of_nat (String.length label) <= label_cut.
Proof.
  unfold ParseSubNames. rewrite in_map_iff. intros (raw & <- & _).
  apply truncate_label_length.
Qed.

(** ** The accumulation loop *)

Lemma GetNameID_unfold (Name : string) (parent : list byte) :
  GetNameID Name parent = Hash160 (id_hash AtGetNameID Name parent Name).
Proof. unfold GetNameID. by destruct (CleanName Name parent). Qed.

Lemma id_hash_intact (site : read_site) (Name : string) (Parent : list byte) (label : string) :
  reads_intact ->
  Hash160 (id_hash site Name Parent label) = fold_step digest_c_str Parent label.
Proof.
  intros Hintact. unfold id_hash, hash_idName, fold_step, digest_c_str.
  by rewrite Hintact.
Qed.

Lemma CleanName_loop_fold (Name leaf : string) (ancestors : list string) :
  reads_intact ->
  forall (i : nat) (Parent : list byte),
    (i <= length ancestors)%nat ->
    CleanName_loop Name (leaf :: ancestors) i Parent =
    fold_right (fun label acc => fold_step digest_c_str acc label) Parent (take i ancestors).
Proof.
  intros Hintact. induction i as [|i IH]; intros Parent Hi.
  - by rewrite take_0.
  - destruct (lookup_lt_is_Some_2 ancestors i) as [label Hlabel]; [lia|].
    rewrite (take_S_r _ _ _ Hlabel), fold_right_app. simpl fold_right.
    change (CleanName_loop Name (leaf :: ancestors) (S i) Parent)
      with (CleanName_loop Name (leaf :: ancestors) i
              (Hash160 (id_hash (AtCleanName (S i)) Name Parent
                                (nth i ancestors EmptyString)))).
    rewrite IH by lia.
    by rewrite (nth_lookup_Some _ _ _ _ Hlabel), id_hash_intact.
Qed.

(** ** Names without NUL characters *)

Lemma c_str_nul_free (s : string) : nul_free s = true -> c_str s = s.
Proof.
  induction s as [|c r IH]; simpl; [done|].
  destruct (Ascii.eqb c zero); simpl; [done|]. intros H. by rewrite IH.
Qed.

Lemma tolower_zero (c : ascii) : Ascii.eqb (tolower c) zero = Ascii.eqb c zero.
Proof. by destruct c as [[] [] [] [] [] [] [] []]. Qed.

Lemma to_lower_copy_nul_free (s : string) :
  nul_free (to_lower_copy s) = nul_free s.
Proof. induction s as [|c r IH]; simpl; [done|]. by rewrite tolower_zero, IH. Qed.

Lemma digest_c_str_nul_free (s : string) :
  nul_free s = true -> digest_c_str s = label_digest s.
Proof.
  intros H. unfold digest_c_str, label_digest.
  by rewrite c_str_nul_free by (by rewrite to_lower_copy_nul_free).
Qed.

Lemma replace_invalid_nul_free (s : string) :
  nul_free s = true -> nul_free (replace_invalid s) = true.
Proof.
  induction s as [|c r IH]; simpl; [done|].
  intros [Hc Hr]%andb_prop. rewrite IH by done.
  destruct (is_invalid c); [done|]. by rewrite Hc.
Qed.

Lemma split_any_nul_free (s : string) :
  nul_free s = true -> Forall (fun piece => nul_free piece = true) (split_any s).
Proof.
  induction s as [|c r IH]; simpl.
  - intros _. by repeat constructor.
  - intros [Hc Hr]%andb_prop. specialize (IH Hr).
    destruct (is_separator c); [by constructor|].
    destruct (split_any r) as [|piece pieces].
    + constructor; [simpl; by rewrite Hc | constructor].
    + inversion IH; subst. constructor; [|done]. simpl. by rewrite Hc.
Qed.

Lemma substring_0_nul_free (n : nat) (s : string) :
  nul_free s = true -> nul_free (String.substring 0 n s) = true.
Proof.
  revert n. induction s as [|c r IH]; intros [|n]; simpl; try done.
  intros [Hc Hr]%andb_prop. by rewrite Hc, IH.
Qed.

Lemma ParseSubNames_nul_free (Name : string) :
  nul_free Name = true -> Forall (fun label => nul_free label = true) (ParseSubNames Name).
Proof.
  intros H. unfold ParseSubNames. apply Forall_map.
  eapply Forall_impl; [by apply split_any_nul_free, replace_invalid_nul_free|].
  intros piece Hp. simpl. rewrite truncate_label_substring. by apply substring_0_nul_free.
Qed.

Lemma fold_digest_ext (d1 d2 : string -> list byte) (labels : list string) (Parent : list byte) :
  Forall (fun label => d1 label = d2 label) labels ->
  fold_right (fun label acc => fold_step d1 acc label) Parent labels =
  fold_right (fun label acc => fold_step d2 acc label) Parent labels.
Proof.
  induction 1 as [|label rest Hd _ IH]; simpl; [done|].
  rewrite IH. unfold fold_step. by rewrite Hd.
Qed.

(** ** The ordered map of versions *)

Lemma ids_insert_nonempty (h : N) (v : CIdentity) (m : list (N * CIdentity)) :
  ids_insert h v m <> [].
Proof.
  destruct m as [|[k w] r]; simpl; [done|].
  destruct (h <? k)%N; [done|]. by destruct (h =? k)%N.
Qed.

Lemma ids_insert_length (h : N) (v : CIdentity) (m : list (N * CIdentity)) :
  (length (ids_insert h v m) <= S (length m))%nat.
Proof.
  induction m as [|[k w] r IH]; simpl; [lia|].
  destruct (h <? k)%N; simpl; [lia|].
  destruct (h =? k)%N; simpl; lia.
Qed.

Lemma ids_insert_HdRel (lo h : N) (v : CIdentity) (m : list (N * CIdentity)) :
  (lo < h)%N -> HdRel N.lt lo (heights m) -> HdRel N.lt lo (heights (ids_insert h v m)).
Proof.
  intros Hlo Hm. destruct m as [|[k w] r]; simpl; [by constructor|].
  destruct (h <? k)%N; [by constructor|].
  destruct (h =? k)%N; [done|].
  inversion Hm; subst. by constructor.
Qed.

Lemma ids_insert_sorted (h : N) (v : CIdentity) (m : list (N * CIdentity)) :
  strictly_increasing (heights m) -> strictly_increasing (heights (ids_insert h v m)).
Proof.
  unfold strictly_increasing.
  induction m as [|[k w] r IH]; simpl; intros Hs.
  - by repeat constructor.
  - apply Sorted_inv in Hs as [Hr Hk].
    destruct (N.ltb_spec h k) as [Hlt|Hge].
    + constructor; [by constructor|]. by constructor.
    + destruct (N.eqb_spec h k) as [->|Hne]; [by constructor|].
      constructor; [by apply IH|].
      apply ids_insert_HdRel; simpl; [lia|done].
Qed.

(** The member on its own: on a history with an entry the call has a
    result; the history keeps an entry, stays within two entries if it
    was, and stays ordered. *)
Lemma UpdateIdentity_history (self : CIdentityWithHistory) (identity : CIdentity)
      (txId : list byte) (blockHeight : N) :
  ids self <> [] ->
  exists (r : bool) (self' : CIdentityWithHistory),
    CIdentityWithHistory_UpdateIdentity self identity txId blockHeight = Some (r, self') /\
    ids self' <> [] /\
    ((length (ids self) <= 2)%nat -> (length (ids self') <= 2)%nat) /\
    (strictly_increasing (heights (ids self)) -> strictly_increasing (heights (ids self'))).
Proof.
  intros Hne. unfold CIdentityWithHistory_UpdateIdentity.
  destruct (ids self) as [|[first a] rest] eqn:Hids; [done|].
  destruct rest as [|second rest].
  - destruct (blockHeight =? first)%N eqn:Heq.
    + exists true, self. simpl. rewrite Heq, Hids. by repeat split.
    + exists true, (set_ids self (ids_insert blockHeight identity [(first, a)])).
      split; [by simpl; rewrite Heq|]. cbn [ids set_ids].
      split; [apply ids_insert_nonempty|]. split.
      * pose proof (ids_insert_length blockHeight identity [(first, a)]).
        simpl in *. lia.
      * apply ids_insert_sorted.
  - destruct (last_is_Some ((first, a) :: second :: rest)) as [_ Hl].
    destruct Hl as [[final b] Hlast]; [done|].
    replace (length ((first, a) :: second :: rest) =? 1)%nat with false by done.
    cbn [head tail].
    destruct (first <? blockHeight)%N.
    + rewrite Hlast. destruct (blockHeight =? final)%N; cbn [negb].
      * exists true, self. rewrite Hids. by repeat split.
      * exists true, (set_ids self (ids_insert blockHeight identity (second :: rest))).
        split; [done|]. cbn [ids set_ids]. split; [apply ids_insert_nonempty|]. split.
        -- pose proof (ids_insert_length blockHeight identity (second :: rest)).
           simpl in *. lia.
        -- intros Hs. apply ids_insert_sorted. by apply Sorted_inv in Hs as [? _].
    + exists false, self. rewrite Hids. by repeat split.
Qed.

Lemma update_all_history (calls : list (CIdentity * list byte * N)) :
  forall self : CIdentityWithHistory,
    ids self <> [] -> (length (ids self) <= 2)%nat ->
    strictly_increasing (heights (ids self)) ->
    exists self' : CIdentityWithHistory,
      update_all self calls = Some self' /\
      ids self' <> [] /\ (length (ids self') <= 2)%nat /\
      strictly_increasing (heights (ids self')).
Proof.
  induction calls as [|[[identity txId] h] rest IH]; intros self Hne Hlen Hs; simpl.
  - by exists self.
  - destruct (UpdateIdentity_history self identity txId h Hne) as (r & self1 & -> & Hne1 & Hlen1 & Hs1).
    apply IH; auto.
Qed.

Lemma SetHDSeed_run_set (later : list HDSeed) (ks : CBasicKeyStore) :
  HDSeed_IsNull (hdSeed ks) = false ->
  SetHDSeed_run ks later = (repeat false (length later), ks).
Proof.
  intros Hset. induction later as [|seed rest IH]; simpl; [done|].
  unfold SetHDSeed. rewrite Hset. simpl. by rewrite IH.
Qed.

(** The slot has no flag besides the seed itself: storing a null seed
    leaves it null, and the next call stores again. *)
Lemma SetHDSeed_null_seed (ks : CBasicKeyStore) (seed seed' : HDSeed) :
  HDSeed_IsNull (hdSeed ks) = true ->
  HDSeed_IsNull seed = true ->
  SetHDSeed ks seed = (true, set_hdSeed ks seed) /\
  GetHDSeed (set_hdSeed ks seed) = None /\
  fst (SetHDSeed (set_hdSeed ks seed) seed') = true.
Proof.
  intros Hslot Hseed. unfold SetHDSeed, GetHDSeed. simpl.
  by rewrite Hslot, Hseed.
Qed.

Lemma ScriptOrIdentityID_cases (scr : list byte) :
  ScriptOrIdentityID scr =
  match identity_primary_condition scr with
  | Some identity => CIdentity_GetNameID identity
  | None => CScriptID_of_script scr
  end.
Proof.
  unfold ScriptOrIdentityID, identity_primary_condition.
  destruct (IsPayToCryptoCondition scr) as [isCC p].
  destruct isCC, (COptCCParams_IsValid p), (evalCode p =? EVAL_IDENTITY_PRIMARY),
    (vData p) as [|d ds]; simpl; try done.
  by destruct (CIdentity_IsValid (CIdentity_from d)).
Qed.

(** One call on the identity map: it has a result when every stored
    history has an entry, every stored history has one afterwards, and
    the two-entry bound survives a call that installs no larger record. *)
Lemma do_call_histories (ks : CBasicKeyStore) (c : identity_call) :
  map_Forall (fun _ r => (1 <= length (ids r))%nat) (mapIdentities ks) ->
  exists ks' : CBasicKeyStore,
    do_call ks c = Some ks' /\
    map_Forall (fun _ r => (1 <= length (ids r))%nat) (mapIdentities ks') /\
    (call_small c ->
     map_Forall (fun _ r => (length (ids r) <= 2)%nat) (mapIdentities ks) ->
     map_Forall (fun _ r => (length (ids r) <= 2)%nat) (mapIdentities ks')).
Proof.
  intros Hone. destruct c as [identity txId h|identity txId h|idID|r]; simpl.
  - unfold AddIdentity. case_bool_decide; simpl; eexists; (split; [done|]); [done|].
    simpl. split; [|intros _ Htwo]; apply map_Forall_insert_2; simpl; auto.
  - unfold UpdateIdentity.
    destruct (mapIdentities ks !! CIdentity_GetNameID identity) as [history|] eqn:Hfind;
      [|by exists ks].
    pose proof (map_Forall_lookup_1 _ _ _ _ Hone Hfind) as Hlen. simpl in Hlen.
    destruct (UpdateIdentity_history history identity txId h) as (b & history' & -> & Hne & Hle & _).
    { intros E. rewrite E in Hlen. simpl in Hlen. lia. }
    simpl. eexists; split; [done|]. simpl.
    split; [|intros _ Htwo]; apply map_Forall_insert_2; auto.
    + destruct (ids history'); simpl; [done|lia].
    + apply Hle. by apply (map_Forall_lookup_1 _ _ _ _ Htwo Hfind).
  - eexists; split; [done|]. simpl.
    split; [|intros _ Htwo]; by apply map_Forall_delete.
  - unfold AddUpdateIdentityAndHistory.
    destruct (CIdentityWithHistory_IsValid r && negb (length (ids r) =? 0)%nat) eqn:Hguard;
      [|by exists ks].
    destruct (head (ids r)) as [[h earliest]|] eqn:Hhead; [|by exists ks].
    apply andb_prop in Hguard as [_ Hlen].
    eexists; split; [done|]. simpl.
    split; [|intros Hsmall Htwo]; apply map_Forall_insert_2; auto.
    destruct (ids r); simpl in *; [done|lia].
Qed.

Lemma run_calls_histories (cs : list identity_call) :
  forall ks : CBasicKeyStore,
    map_Forall (fun _ r => (1 <= length (ids r))%nat) (mapIdentities ks) ->
    exists ks' : CBasicKeyStore,
      run_calls ks cs = Some ks' /\
      map_Forall (fun _ r => (1 <= length (ids r))%nat) (mapIdentities ks') /\
      (Forall call_small cs ->
       map_Forall (fun _ r => (length (ids r) <= 2)%nat) (mapIdentities ks) ->
       map_Forall (fun _ r => (length (ids r) <= 2)%nat) (mapIdentities ks')).
Proof.
  induction cs as [|c rest IH]; intros ks Hone; simpl.
  - by exists ks.
  - destruct (do_call_histories ks c Hone) as (ks1 & -> & Hone1 & Htwo1).
    destruct (IH ks1 Hone1) as (ks2 & Hrun & Hone2 & Htwo2).
    exists ks2. split; [done|]. split; [done|].
    intros Hsmall Htwo. apply Forall_cons in Hsmall as [Hc Hrest]. auto.
Qed.

(** * The properties of the specification *)

(** C1 (the code at the input of the claim).  For the name [Alice.Bob]
    and a null parent, [GetNameID] returns the 160-bit digest of the hash
    of the range it reads through the destroyed lower-cased copy of the
    whole name: whatever that read finds, and nothing else.  The parent
    that [CleanName] accumulated from the label [bob] does not enter the
    result; the parent tested and hashed is the one passed in, which is
    null. *)
Theorem GetNameID_Alice_Bob :
  GetNameID "Alice.Bob" uint160_null =
  Hash160 (Hash (list_byte_of_string
                   (freed_c_str AtGetNameID "Alice.Bob" uint160_null "alice.bob"))).
Proof. unfold GetNameID. by destruct (CleanName "Alice.Bob" uint160_null). Qed.

(** Had the read found its string in place, the ID would hash the
    lower-cased whole name under the parent that was passed in. *)
Lemma GetNameID_reads_intact (Name : string) (parent : list byte) :
  reads_intact ->
  GetNameID Name parent =
  Hash160 (if IsNull parent then digest_c_str Name
           else Hash (parent ++ digest_c_str Name)).
Proof. intros Hintact. by rewrite GetNameID_unfold, id_hash_intact. Qed.

(** C2 (the code at an input of two labels).  For a sane label maximum,
    [CleanName] on [Alice.Bob] with a null parent returns the leaf
    [Alice]; the parent it leaves is the 160-bit digest of the hash of
    the range read through the destroyed lower-cased copy of the label
    [bob], at index 1 of the loop: whatever that read finds, which need
    not be the label. *)
Theorem CleanName_Alice_Bob :
  6 <= KOMODO_ASSETCHAIN_MAXLEN <= 2 ^ 64 ->
  CleanName "Alice.Bob" uint160_null =
  ("Alice"%string,
   Hash160 (Hash (list_byte_of_string
                    (freed_c_str (AtCleanName 1) "Alice.Bob" uint160_null "bob")))).
Proof.
  intros H. unfold CleanName, ParseSubNames. simpl map.
  unfold truncate_label. rewrite label_cut_small by lia. simpl String.length.
  destruct (Z.ltb_spec (KOMODO_ASSETCHAIN_MAXLEN - 1) (Z.of_nat 5)); [lia|].
  destruct (Z.ltb_spec (KOMODO_ASSETCHAIN_MAXLEN - 1) (Z.of_nat 3)); [lia|].
  reflexivity.
Qed.

(** Had every read found its string in place, [CleanName] would be the
    fold over the labels with the hash of the lower-cased C string of a
    label as its digest, *)
Lemma CleanName_fold_reads_intact (Name : string) (Parent : list byte) :
  reads_intact -> CleanName Name Parent = cleanName_fold digest_c_str Name Parent.
Proof.
  intros Hintact. unfold CleanName, cleanName_fold.
  destruct (ParseSubNames Name) as [|leaf ancestors]; [done|].
  replace (length (leaf :: ancestors) - 1)%nat with (length ancestors) by (simpl; lia).
  cbn [length Nat.eqb nth].
  by rewrite CleanName_loop_fold, firstn_all.
Qed.

(** and, on a name without NUL characters, the fold that the
    specification words. *)
Lemma CleanName_spec_reads_intact (Name : string) (Parent : list byte) :
  reads_intact -> nul_free Name = true ->
  CleanName Name Parent = cleanName_spec Name Parent.
Proof.
  intros Hintact Hfree. rewrite CleanName_fold_reads_intact by done.
  unfold cleanName_spec, cleanName_fold.
  pose proof (ParseSubNames_nul_free Name Hfree) as Hlabels.
  destruct (ParseSubNames Name) as [|leaf ancestors]; [done|]. f_equal.
  apply fold_digest_ext. apply Forall_cons in Hlabels as [_ Hanc].
  eapply Forall_impl; [exact Hanc|]. intros label. apply digest_c_str_nul_free.
Qed.

(** C3.  On a history of exactly two entries, with minimum height [h1]
    and maximum height [h2], [UpdateIdentity] at a height not above the
    minimum is rejected ([false]) and leaves the history as it was; a
    height equal to the maximum is a duplicate and is not inserted, the
    history staying as it was (the call itself reports [true]); any other
    height evicts the minimum-height entry and inserts
    [(height, identity)]. *)
Theorem UpdateIdentity_two_entries
        (v f : Z) (h1 h2 : N) (a b identity : CIdentity) (txId : list byte) (h : N) :
  (h1 < h2)%N ->
  let self := {| version := v; flags := f; ids := [(h1, a); (h2, b)] |} in
  CIdentityWithHistory_UpdateIdentity self identity txId h =
  if (h <=? h1)%N then Some (false, self)
  else if (h =? h2)%N then Some (true, self)
  else Some (true, set_ids self (if (h <? h2)%N
                                 then [(h, identity); (h2, b)]
                                 else [(h2, b); (h, identity)])).
Proof.
  intros Hlt self. unfold CIdentityWithHistory_UpdateIdentity. simpl.
  destruct (N.ltb_spec h1 h), (N.leb_spec h h1); try lia; [|done].
  destruct (N.eqb_spec h h2); [done|]. simpl.
  by destruct (h <? h2)%N.
Qed.

(** C4.  Starting from the single-entry history that [AddIdentity]
    stores, every run of [UpdateIdentity] calls with strictly increasing
    heights has a result, and the history it leaves holds at most two
    entries (and at least one) whose heights are strictly increasing. *)
Theorem history_bound_after_updates
        (ks ks' : CBasicKeyStore) (identity : CIdentity) (txId : list byte) (h : N)
        (history : CIdentityWithHistory) (calls : list (CIdentity * list byte * N)) :
  AddIdentity ks identity txId h = (true, ks') ->
  mapIdentities ks' !! CIdentity_GetNameID identity = Some history ->
  strictly_increasing (map snd calls) ->
  exists history' : CIdentityWithHistory,
    update_all history calls = Some history' /\
    (1 <= length (ids history') <= 2)%nat /\
    strictly_increasing (heights (ids history')).
Proof.
  unfold AddIdentity. case_bool_decide; [done|].
  intros [= <-]. simpl. rewrite lookup_insert_eq. intros [= <-] _.
  destruct (update_all_history calls
              {| version := VERSION_CURRENT; flags := VALID; ids := [(h, identity)] |})
    as (history' & Hrun & Hne & Hlen & Hs); simpl; [done|lia|by repeat constructor|].
  exists history'. repeat split; [done| |done|done].
  destruct (ids history'); simpl; [done|lia].
Qed.

(** C5.  [AddSaplingSpendingKey sk addr] succeeds, and on the store it
    leaves [GetSaplingExtendedSpendingKey addr] succeeds with [sk]: the
    walk from the address to the incoming viewing key, to the full
    viewing key, to the spending key finds the three entries just
    written. *)
Theorem Sapling_spending_key_roundtrip
        (ks : CBasicKeyStore) (sk : SaplingExtendedSpendingKey)
        (addr : SaplingPaymentAddress) :
  exists ks' : CBasicKeyStore,
    AddSaplingSpendingKey ks sk addr = (true, ks') /\
    GetSaplingExtendedSpendingKey ks' addr = Some sk.
Proof.
  eexists. split; [reflexivity|].
  unfold GetSaplingExtendedSpendingKey, GetSaplingIncomingViewingKey,
    GetSaplingFullViewingKey, GetSaplingSpendingKey. simpl.
  by rewrite !lookup_insert_eq.
Qed.

(** C6.  A script within the size limit is stored by [AddCScript] under
    [GetNameID] of the identity [I] when the decoder reports a valid
    identity-primary condition with the well-formed identity [I] in it,
    and under the hash-based ID of the script otherwise; in the first
    case nothing is written under the hash-based ID, unless the two keys
    coincide. *)
Theorem AddCScript_storage_key (ks : CBasicKeyStore) (scr : list byte) :
  (length scr <= MAX_SCRIPT_ELEMENT_SIZE)%nat ->
  let key := match identity_primary_condition scr with
             | Some identity => CIdentity_GetNameID identity
             | None => CScriptID_of_script scr
             end in
  AddCScript ks scr = (true, set_mapScripts ks (<[key := scr]> (mapScripts ks))) /\
  GetCScript (snd (AddCScript ks scr)) key = Some scr /\
  (key <> CScriptID_of_script scr ->
   GetCScript (snd (AddCScript ks scr)) (CScriptID_of_script scr) =
   GetCScript ks (CScriptID_of_script scr)).
Proof.
  intros Hsize key. unfold AddCScript.
  destruct (Nat.ltb_spec MAX_SCRIPT_ELEMENT_SIZE (length scr)) as [|_]; [lia|].
  rewrite ScriptOrIdentityID_cases. fold key. unfold GetCScript. simpl.
  split; [done|]. split; [by rewrite lookup_insert_eq|].
  intros Hne. by rewrite lookup_insert_ne.
Qed.

(** C7 (as the code has it).  On a store whose seed slot is null, a
    first [SetHDSeed] with a seed that is not itself null returns [true]
    and stores it; every later [SetHDSeed] returns [false] and leaves the
    store as it was, so [GetHDSeed] returns the first seed. *)
Theorem SetHDSeed_write_once (ks : CBasicKeyStore) (seed : HDSeed) (later : list HDSeed) :
  HDSeed_IsNull (hdSeed ks) = true ->
  HDSeed_IsNull seed = false ->
  SetHDSeed_run ks (seed :: later) =
    (true :: repeat false (length later), set_hdSeed ks seed) /\
  GetHDSeed (set_hdSeed ks seed) = Some seed.
Proof.
  intros Hnull Hseed. split.
  - simpl. unfold SetHDSeed at 1. rewrite Hnull. simpl.
    by rewrite SetHDSeed_run_set.
  - unfold GetHDSeed. simpl. by rewrite Hseed.
Qed.

(** Truncation as far as it reaches without a hash: every label that
    [ParseSubNames] produces has at most [max - 1] characters, the first
    ones of the piece it comes from ([max - 1] is [label_cut], which is
    [KOMODO_ASSETCHAIN_MAXLEN - 1] for a maximum from 1 to [2 ^ 64], see
    [label_cut_small]); two names whose pieces agree pairwise on their
    first [max - 1] characters parse to the same labels, and [CleanName]
    returns the same leaf for both. *)
Lemma truncation_labels (n1 n2 : string) (Parent : list byte) :
  Forall2 agree_to_cut (raw_labels n1) (raw_labels n2) ->
  (forall label, In label (ParseSubNames n1) -> Z.of_nat (String.length label) <= label_cut) /\
  ParseSubNames n1 = map (String.substring 0 (Z.to_nat label_cut)) (raw_labels n1) /\
  ParseSubNames n1 = ParseSubNames n2 /\
  fst (CleanName n1 Parent) = fst (CleanName n2 Parent).
Proof.
  intros Hagree. split; [intros label; apply ParseSubNames_length_bound|].
  split; [apply map_ext, truncate_label_substring|].
  pose proof (ParseSubNames_agree n1 n2 Hagree) as Hlabels.
  split; [done|]. unfold CleanName. rewrite Hlabels.
  by destruct (length (ParseSubNames n2) =? 0)%nat.
Qed.

(** C9.  The store-level [UpdateIdentity] returns [false] exactly when
    the identity map has no history under the name ID of the identity.
    When it has one, the call returns [true] whatever the per-identity
    update returned: that result is dropped, and the history the inner
    call left is written back.  (Stored histories are taken to hold an
    entry, as every history the store's own operations put there does.) *)
Theorem UpdateIdentity_registry_result
        (ks : CBasicKeyStore) (identity : CIdentity) (txId : list byte) (h : N) :
  map_Forall (fun _ r => (1 <= length (ids r))%nat) (mapIdentities ks) ->
  exists (r : bool) (ks' : CBasicKeyStore),
    UpdateIdentity ks identity txId h = Some (r, ks') /\
    (r = false <-> mapIdentities ks !! CIdentity_GetNameID identity = None) /\
    (forall history : CIdentityWithHistory,
        mapIdentities ks !! CIdentity_GetNameID identity = Some history ->
        exists (inner : bool) (history' : CIdentityWithHistory),
          CIdentityWithHistory_UpdateIdentity history identity txId h = Some (inner, history') /\
          r = true /\
          ks' = set_mapIdentities ks
                  (<[CIdentity_GetNameID identity := history']> (mapIdentities ks))).
Proof.
  intros Hone. unfold UpdateIdentity.
  destruct (mapIdentities ks !! CIdentity_GetNameID identity) as [history|] eqn:Hfind.
  - pose proof (map_Forall_lookup_1 _ _ _ _ Hone Hfind) as Hlen. simpl in Hlen.
    destruct (UpdateIdentity_history history identity txId h) as (inner & history' & Hin & _).
    { intros E. rewrite E in Hlen. simpl in Hlen. lia. }
    rewrite Hin. eexists _, _. split; [done|]. split; [done|].
    intros ? [= <-]. by exists inner, history'.
  - exists false, ks. by repeat split.
Qed.

(** C10 (as the code has it).  From a store with an empty identity map,
    every run of [AddIdentity], [UpdateIdentity], [RemoveIdentity] and
    [AddUpdateIdentityAndHistory] calls has a result (no call reads the
    first entry of an empty history), and every history stored at the
    end holds at least one entry.  It holds at most two when every record
    handed to [AddUpdateIdentityAndHistory] does; a larger record is
    stored whole. *)
Theorem identity_histories_nonempty (ks0 : CBasicKeyStore) (cs : list identity_call) :
  mapIdentities ks0 = ∅ ->
  exists ks : CBasicKeyStore,
    run_calls ks0 cs = Some ks /\
    map_Forall (fun _ r => (1 <= length (ids r))%nat) (mapIdentities ks) /\
    (Forall call_small cs ->
     map_Forall (fun _ r => (length (ids r) <= 2)%nat) (mapIdentities ks)).
Proof.
  intros Hempty.
  destruct (run_calls_histories cs ks0) as (ks & Hrun & Hone & Htwo).
  { rewrite Hempty. apply map_Forall_empty. }
  exists ks. split; [done|]. split; [done|].
  intros Hsmall. apply Htwo; [done|]. rewrite Hempty. apply map_Forall_empty.
Qed.

(** * Further properties *)

(** ** Parsing *)

Lemma replaced_separator (c : ascii) :
  is_separator (if is_invalid c then "_"%char else c) = is_separator c.
Proof. by destruct c as [[] [] [] [] [] [] [] []]. Qed.

Lemma replaced_valid (c : ascii) :
  is_invalid (if is_invalid c then "_"%char else c) = false.
Proof. by destruct c as [[] [] [] [] [] [] [] []]. Qed.

Lemma count_separators_replace_invalid (s : string) :
  count_separators (replace_invalid s) = count_separators s.
Proof. induction s as [|c r IH]; simpl; [done|]. by rewrite replaced_separator, IH. Qed.

Lemma split_any_length (s : string) :
  length (split_any s) = S (count_separators s).
Proof.
  induction s as [|c r IH]; simpl; [done|].
  destruct (is_separator c); simpl; [by rewrite IH|].
  destruct (split_any r); simpl in *; [done|lia].
Qed.

Lemma split_any_whole (s : string) :
  count_separators s = O -> split_any s = [s].
Proof.
  induction s as [|c r IH]; simpl; [done|].
  destruct (is_separator c); simpl; [done|]. intros H. by rewrite IH.
Qed.

Lemma string_forall_impl (P Q : ascii -> bool) (s : string) :
  (forall c, P c = true -> Q c = true) -> string_forall P s = true -> string_forall Q s = true.
Proof.
  intros HPQ. induction s as [|c r IH]; simpl; [done|].
  intros [Hc Hr]%andb_prop. by rewrite (HPQ c Hc), IH.
Qed.

Lemma no_separator_count (s : string) :
  string_forall (fun c => negb (is_separator c)) s = true -> count_separators s = O.
Proof.
  induction s as [|c r IH]; simpl; [done|].
  intros [Hc Hr]%andb_prop. rewrite IH by done. by destruct (is_separator c).
Qed.

Lemma replace_invalid_valid (s : string) :
  string_forall (fun c => negb (is_invalid c)) (replace_invalid s) = true.
Proof. induction s as [|c r IH]; simpl; [done|]. by rewrite replaced_valid, IH. Qed.

Lemma replace_invalid_same (s : string) :
  string_forall (fun c => negb (is_invalid c)) s = true -> replace_invalid s = s.
Proof.
  induction s as [|c r IH]; simpl; [done|].
  intros [Hc Hr]%andb_prop. rewrite IH by done. by destruct (is_invalid c).
Qed.

(** A piece holds no separator, and keeps whatever holds of every
    character of the string that was split. *)
Lemma split_any_pieces (P : ascii -> bool) (s : string) :
  string_forall P s = true ->
  Forall (fun piece => string_forall (fun c => P c && negb (is_separator c)) piece = true)
         (split_any s).
Proof.
  induction s as [|c r IH]; simpl.
  - intros _. by repeat constructor.
  - intros [Hc Hr]%andb_prop. specialize (IH Hr).
    destruct (is_separator c) eqn:Hsep; [by constructor|].
    destruct (split_any r) as [|piece pieces].
    + constructor; [simpl; by rewrite Hc, Hsep | constructor].
    + inversion IH; subst. constructor; [|done]. simpl. by rewrite Hc, Hsep.
Qed.

Lemma substring_0_forall (P : ascii -> bool) (n : nat) (s : string) :
  string_forall P s = true -> string_forall P (String.substring 0 n s) = true.
Proof.
  revert n. induction s as [|c r IH]; intros [|n]; simpl; try done.
  intros [Hc Hr]%andb_prop. by rewrite Hc, IH.
Qed.

Lemma truncate_label_short (s : string) :
  Z.of_nat (String.length s) <= label_cut -> truncate_label s = s.
Proof.
  intros H. unfold truncate_label.
  by destruct (Z.ltb_spec label_cut (Z.of_nat (String.length s))); [lia|].
Qed.

Lemma ParseSubNames_plain (Name : string) :
  Forall (fun label => string_forall plain_char label = true) (ParseSubNames Name).
Proof.
  unfold ParseSubNames. apply Forall_map.
  eapply Forall_impl; [apply split_any_pieces, replace_invalid_valid|].
  intros piece Hp. simpl. rewrite truncate_label_substring. by apply substring_0_forall.
Qed.

Lemma ParseSubNames_of_plain (label : string) :
  string_forall plain_char label = true ->
  Z.of_nat (String.length label) <= label_cut ->
  ParseSubNames label = [label].
Proof.
  intros Hplain Hlen. unfold ParseSubNames.
  rewrite replace_invalid_same.
  - rewrite split_any_whole; [simpl; by rewrite truncate_label_short|].
    apply no_separator_count. revert Hplain. apply string_forall_impl.
    unfold plain_char. by intros c [_ ?]%andb_prop.
  - revert Hplain. apply string_forall_impl.
    unfold plain_char. by intros c [? _]%andb_prop.
Qed.

(** X1.  [ParseSubNames] returns one label more than the name has dots
    and at-signs: never an empty vector, one (empty) label for the empty
    name. *)
Theorem ParseSubNames_length (Name : string) :
  length (ParseSubNames Name) = S (count_separators Name).
Proof.
  unfold ParseSubNames.
  by rewrite length_map, split_any_length, count_separators_replace_invalid.
Qed.

(** X2.  No label that [ParseSubNames] returns holds one of the nine
    invalid characters, a dot or an at-sign, and none is longer than the
    cutoff. *)
Theorem ParseSubNames_labels_plain (Name label : string) :
  In label (ParseSubNames Name) ->
  string_forall plain_char label = true /\
  Z.of_nat (String.length label) <= label_cut.
Proof.
  intros Hin. split; [|by eapply ParseSubNames_length_bound].
  pose proof (ParseSubNames_plain Name) as Hall.
  rewrite Forall_forall in Hall. apply Hall. by apply list_elem_of_In.
Qed.

(** X3.  Parsing is idempotent on its own output: a label that
    [ParseSubNames] returned parses to itself and nothing else. *)
Theorem ParseSubNames_idempotent (Name label : string) :
  In label (ParseSubNames Name) -> ParseSubNames label = [label].
Proof.
  intros Hin. apply ParseSubNames_of_plain.
  - pose proof (ParseSubNames_plain Name) as Hall.
    rewrite Forall_forall in Hall. apply Hall. by apply list_elem_of_In.
  - by eapply ParseSubNames_length_bound.
Qed.

(** ** Cleaning *)

Lemma CleanName_leaf (Name : string) (Parent : list byte) :
  fst (CleanName Name Parent) = hd EmptyString (ParseSubNames Name).
Proof.
  unfold CleanName. pose proof (ParseSubNames_nonempty Name).
  by destruct (ParseSubNames Name).
Qed.

(** X4.  On a name without dot or at-sign [CleanName] leaves the parent
    as it was and returns the name with its invalid characters replaced,
    cut to the label length. *)
Theorem CleanName_single_label (Name : string) (Parent : list byte) :
  count_separators Name = O ->
  CleanName Name Parent = (truncate_label (replace_invalid Name), Parent).
Proof.
  intros Hnone. unfold CleanName, ParseSubNames.
  by rewrite split_any_whole by (by rewrite count_separators_replace_invalid).
Qed.

Lemma replace_invalid_app (a b : string) :
  replace_invalid (a +:+ b) = replace_invalid a +:+ replace_invalid b.
Proof. induction a as [|c r IH]; simpl; [done|]. by rewrite IH. Qed.

Lemma split_any_app (a b : string) (sep : ascii) :
  is_separator sep = true ->
  split_any (a +:+ String sep b) = split_any a ++ split_any b.
Proof.
  intros Hsep. induction a as [|c r IH]; simpl.
  - by rewrite Hsep.
  - rewrite IH. destruct (is_separator c); [done|].
    pose proof (split_any_nonempty r). by destruct (split_any r).
Qed.

Lemma ParseSubNames_app (a b : string) (sep : ascii) :
  is_separator sep = true ->
  ParseSubNames (a +:+ String sep b) = ParseSubNames a ++ ParseSubNames b.
Proof.
  intros Hsep. unfold ParseSubNames.
  rewrite replace_invalid_app. simpl replace_invalid.
  assert (Hkeep : (if is_invalid sep then "_"%char else sep) = sep).
  { revert Hsep. by destruct sep as [[] [] [] [] [] [] [] []]. }
  rewrite Hkeep, split_any_app by done. apply map_app.
Qed.

(** X5.  The labels of a name in two parts.  [ParseSubNames] on [a.b]
    (or [a@b]) returns the labels of [a] followed by the labels of [b],
    and the leaf that [CleanName] returns for it is the leaf of [a]. *)
Theorem ParseSubNames_two_parts (a b : string) (Parent : list byte) :
  ParseSubNames (a +:+ "." +:+ b) = ParseSubNames a ++ ParseSubNames b /\
  ParseSubNames (a +:+ "@" +:+ b) = ParseSubNames a ++ ParseSubNames b /\
  fst (CleanName (a +:+ "." +:+ b) Parent) = fst (CleanName a Parent) /\
  fst (CleanName (a +:+ "@" +:+ b) Parent) = fst (CleanName a Parent).
Proof.
  assert (Hdot : ParseSubNames (a +:+ "." +:+ b) = ParseSubNames a ++ ParseSubNames b)
    by (by apply ParseSubNames_app).
  assert (Hat : ParseSubNames (a +:+ "@" +:+ b) = ParseSubNames a ++ ParseSubNames b)
    by (by apply ParseSubNames_app).
  repeat split; try done; rewrite !CleanName_leaf.
  - rewrite Hdot. pose proof (ParseSubNames_nonempty a). by destruct (ParseSubNames a).
  - rewrite Hat. pose proof (ParseSubNames_nonempty a). by destruct (ParseSubNames a).
Qed.

(** ** Letter case *)

Lemma tolower_invalid (c : ascii) : is_invalid (tolower c) = is_invalid c.
Proof. by destruct c as [[] [] [] [] [] [] [] []]. Qed.

Lemma tolower_separator (c : ascii) : is_separator (tolower c) = is_separator c.
Proof. by destruct c as [[] [] [] [] [] [] [] []]. Qed.

Lemma to_lower_replace_invalid (s : string) :
  to_lower_copy (replace_invalid s) = replace_invalid (to_lower_copy s).
Proof.
  induction s as [|c r IH]; simpl; [done|].
  rewrite IH, tolower_invalid. by destruct (is_invalid c).
Qed.

Lemma to_lower_split_any (s : string) :
  split_any (to_lower_copy s) = map to_lower_copy (split_any s).
Proof.
  induction s as [|c r IH]; simpl; [done|].
  rewrite tolower_separator, IH. destruct (is_separator c); [done|].
  by destruct (split_any r).
Qed.

Lemma to_lower_length (s : string) : String.length (to_lower_copy s) = String.length s.
Proof. induction s as [|c r IH]; simpl; [done|]. by rewrite IH. Qed.

Lemma to_lower_substring_0 (n : nat) (s : string) :
  to_lower_copy (String.substring 0 n s) = String.substring 0 n (to_lower_copy s).
Proof.
  revert n. induction s as [|c r IH]; intros [|n]; simpl; try done. by rewrite IH.
Qed.

Lemma to_lower_ParseSubNames (Name : string) :
  map to_lower_copy (ParseSubNames Name) = ParseSubNames (to_lower_copy Name).
Proof.
  unfold ParseSubNames.
  rewrite <- to_lower_replace_invalid, to_lower_split_any, !map_map.
  apply map_ext. intros piece.
  by rewrite !truncate_label_substring, to_lower_substring_0.
Qed.

(** X6.  Letter case and the labels.  For two names that are equal once
    lower-cased, [ParseSubNames] returns labels that are pairwise equal
    once lower-cased, and the leaves that [CleanName] returns are equal
    once lower-cased. *)
Theorem labels_case_insensitive (n1 n2 : string) (Parent : list byte) :
  to_lower_copy n1 = to_lower_copy n2 ->
  map to_lower_copy (ParseSubNames n1) = map to_lower_copy (ParseSubNames n2) /\
  to_lower_copy (fst (CleanName n1 Parent)) = to_lower_copy (fst (CleanName n2 Parent)).
Proof.
  intros Hlow.
  assert (Hlabels : map to_lower_copy (ParseSubNames n1) =
                    map to_lower_copy (ParseSubNames n2))
    by (by rewrite !to_lower_ParseSubNames, Hlow).
  split; [done|]. rewrite !CleanName_leaf.
  pose proof (ParseSubNames_nonempty n1) as H1.
  pose proof (ParseSubNames_nonempty n2) as H2.
  destruct (ParseSubNames n1) as [|leaf1 anc1]; [done|].
  destruct (ParseSubNames n2) as [|leaf2 anc2]; [done|].
  simpl in *. by injection Hlabels.
Qed.

(** ** One history *)

Lemma ids_insert_keeps (h : N) (v : CIdentity) (m : list (N * CIdentity)) (e : N * CIdentity) :
  In e m -> In e (ids_insert h v m).
Proof.
  induction m as [|[k w] r IH]; simpl; [done|].
  intros He. destruct (h <? k)%N; [by right|].
  destruct (h =? k)%N; [done|].
  destruct He as [<-|He]; [by left|]. right. by apply IH.
Qed.

Lemma ids_insert_height (h : N) (v : CIdentity) (m : list (N * CIdentity)) :
  In h (heights (ids_insert h v m)).
Proof.
  induction m as [|[k w] r IH]; simpl; [by left|].
  destruct (h <? k)%N; [by left|].
  destruct (N.eqb_spec h k) as [->|_]; [by left|]. by right.
Qed.

Lemma last_in {A : Type} (l : list A) (e : A) : last l = Some e -> In e l.
Proof.
  intros H. apply list_elem_of_In. rewrite last_Some in H.
  destruct H as [l' ->]. set_solver.
Qed.

Lemma last_tail {A : Type} (x y : A) (l : list A) : last (x :: y :: l) = last (y :: l).
Proof. done. Qed.

Lemma UpdateIdentity_length (self self' : CIdentityWithHistory) (identity : CIdentity)
      (txId : list byte) (h : N) (r : bool) :
  CIdentityWithHistory_UpdateIdentity self identity txId h = Some (r, self') ->
  (length (ids self') <= Nat.max 2 (length (ids self)))%nat /\
  version self' = version self /\ flags self' = flags self.
Proof.
  unfold CIdentityWithHistory_UpdateIdentity.
  destruct (ids self) as [|[first a] rest] eqn:Hids; [done|].
  destruct rest as [|second rest].
  - simpl. destruct (h =? first)%N; simpl; intros [= <- <-]; [rewrite Hids; simpl; lia|].
    simpl. pose proof (ids_insert_length h identity [(first, a)]). simpl in *.
    split; [|done]. destruct (h <? first)%N; simpl; lia.
  - replace (length ((first, a) :: second :: rest) =? 1)%nat with false by done.
    cbn [head tail]. destruct (first <? h)%N; [|intros [= <- <-]; rewrite Hids; simpl; lia].
    destruct (last ((first, a) :: second :: rest)) as [[final b]|]; [|done].
    destruct (h =? final)%N; cbn [negb]; intros [= <- <-]; [rewrite Hids; simpl; lia|].
    cbn [ids set_ids version flags]. split; [|done].
    pose proof (ids_insert_length h identity (second :: rest)). simpl in *. lia.
Qed.

(** X7.  With one entry on file an update at the same height changes
    nothing, and an update at any other height, lower ones included, is
    inserted in height order; the call returns [true] either way. *)
Theorem UpdateIdentity_single_entry
        (v f : Z) (h1 : N) (a identity : CIdentity) (txId : list byte) (h : N) :
  CIdentityWithHistory_UpdateIdentity
    {| version := v; flags := f; ids := [(h1, a)] |} identity txId h =
  Some (true,
        {| version := v; flags := f;
           ids := if (h =? h1)%N then [(h1, a)]
                  else if (h <? h1)%N then [(h, identity); (h1, a)]
                       else [(h1, a); (h, identity)] |}).
Proof.
  unfold CIdentityWithHistory_UpdateIdentity. simpl.
  destruct (N.eqb_spec h h1) as [->|Hne]; simpl; [done|].
  by destruct (h <? h1)%N.
Qed.

(** X8.  An update that returns [false] has changed nothing, and it
    returns [false] only on a history of two or more entries for a
    height that is not above the lowest one on file. *)
Theorem UpdateIdentity_false_unchanged
        (self self' : CIdentityWithHistory) (identity : CIdentity)
        (txId : list byte) (h : N) :
  CIdentityWithHistory_UpdateIdentity self identity txId h = Some (false, self') ->
  self' = self /\
  (2 <= length (ids self))%nat /\
  exists (first : N) (a : CIdentity), head (ids self) = Some (first, a) /\ (h <= first)%N.
Proof.
  unfold CIdentityWithHistory_UpdateIdentity.
  destruct (ids self) as [|[first a] rest] eqn:Hids; [done|].
  destruct rest as [|second rest].
  - simpl. by destruct (h =? first)%N.
  - replace (length ((first, a) :: second :: rest) =? 1)%nat with false by done.
    cbn [head tail]. destruct (N.ltb_spec first h) as [Hlt|Hge].
    + destruct (last ((first, a) :: second :: rest)) as [[final b]|]; [|done].
      by destruct (h =? final)%N.
    + intros [= <-]. split; [done|]. split; [simpl; lia|]. by exists first, a.
Qed.

(** X9.  An update never evicts the last entry of a history (on an
    ordered history, the version with the greatest height): whatever the
    call does, that entry is still on file afterwards. *)
Theorem UpdateIdentity_keeps_latest
        (self self' : CIdentityWithHistory) (identity : CIdentity)
        (txId : list byte) (h : N) (r : bool) (e : N * CIdentity) :
  last (ids self) = Some e ->
  CIdentityWithHistory_UpdateIdentity self identity txId h = Some (r, self') ->
  In e (ids self').
Proof.
  unfold CIdentityWithHistory_UpdateIdentity. intros Hlast.
  destruct (ids self) as [|[first a] rest] eqn:Hids; [done|].
  destruct rest as [|second rest].
  - simpl in *. injection Hlast as <-.
    destruct (h =? first)%N; simpl; intros [= <- <-]; [rewrite Hids; by left|].
    cbn [ids set_ids]. destruct (h <? first)%N; simpl; auto.
  - replace (length ((first, a) :: second :: rest) =? 1)%nat with false by done.
    cbn [head tail]. rewrite Hlast. destruct e as [final b].
    destruct (first <? h)%N; [|intros [= <- <-]; rewrite Hids; by apply last_in].
    destruct (h =? final)%N; cbn [negb]; intros [= <- <-];
      [rewrite Hids; by apply last_in|].
    apply (ids_insert_keeps h identity (second :: rest)), last_in.
    by rewrite <- (last_tail (first, a)).
Qed.

(** X10.  After an update that returned [true] the history holds an
    entry at the height of the call. *)
Theorem UpdateIdentity_true_height_on_file
        (self self' : CIdentityWithHistory) (identity : CIdentity)
        (txId : list byte) (h : N) :
  CIdentityWithHistory_UpdateIdentity self identity txId h = Some (true, self') ->
  In h (heights (ids self')).
Proof.
  unfold CIdentityWithHistory_UpdateIdentity.
  destruct (ids self) as [|[first a] rest] eqn:Hids; [done|].
  destruct rest as [|second rest].
  - simpl. destruct (N.eqb_spec h first) as [->|_]; simpl; intros [= <-].
    + rewrite Hids. by left.
    + destruct (h <? first)%N; simpl; auto.
  - replace (length ((first, a) :: second :: rest) =? 1)%nat with false by done.
    cbn [head tail]. destruct (first <? h)%N; [|done].
    destruct (last ((first, a) :: second :: rest)) as [[final b]|] eqn:Hlast; [|done].
    destruct (N.eqb_spec h final) as [->|_]; cbn [negb]; intros [= <-].
    + rewrite Hids. apply (in_map fst _ (final, b)). by apply last_in.
    + apply (ids_insert_height h identity (second :: rest)).
Qed.

(** X11.  On a history with an entry an update has a result; the number
    of entries afterwards is at least one and at most the greater of two
    and the number before (a history of more than two entries never
    grows), an ordered history stays ordered, and the version and flags
    words are not touched. *)
Theorem UpdateIdentity_never_grows
        (self : CIdentityWithHistory) (identity : CIdentity) (txId : list byte) (h : N) :
  ids self <> [] ->
  exists (r : bool) (self' : CIdentityWithHistory),
    CIdentityWithHistory_UpdateIdentity self identity txId h = Some (r, self') /\
    (1 <= length (ids self') <= Nat.max 2 (length (ids self)))%nat /\
    (strictly_increasing (heights (ids self)) -> strictly_increasing (heights (ids self'))) /\
    version self' = version self /\ flags self' = flags self.
Proof.
  intros Hne.
  destruct (UpdateIdentity_history self identity txId h Hne) as (r & self' & Hcall & Hne' & _ & Hs).
  destruct (UpdateIdentity_length _ _ _ _ _ _ Hcall) as (Hlen & Hv & Hf).
  exists r, self'. repeat split; try done.
  destruct (ids self'); simpl; [done|lia].
Qed.

(** ** The identity map *)

Lemma set_mapIdentities_same (ks : CBasicKeyStore) :
  set_mapIdentities ks (mapIdentities ks) = ks.
Proof. by destruct ks. Qed.

Lemma HaveIdentity_false (ks : CBasicKeyStore) (idID : list byte) :
  HaveIdentity ks idID = false <-> mapIdentities ks !! idID = None.
Proof.
  unfold HaveIdentity. rewrite bool_decide_eq_false, <- eq_None_not_Some. done.
Qed.


(** X13.  [RemoveIdentity] always returns [true].  Afterwards the ID is
    not on file and every other ID is untouched; removing an ID that is
    not on file, or removing twice, changes nothing more; and
    [AddIdentity] of an identity with that name ID then succeeds. *)
Theorem RemoveIdentity_result (ks : CBasicKeyStore) (idID : list byte) :
  let ks' := snd (RemoveIdentity ks idID) in
  fst (RemoveIdentity ks idID) = true /\
  HaveIdentity ks' idID = false /\
  (forall k, k <> idID -> GetIdentityAndHistory ks' k = GetIdentityAndHistory ks k) /\
  (HaveIdentity ks idID = false -> ks' = ks) /\
  snd (RemoveIdentity ks' idID) = ks' /\
  (forall (identity : CIdentity) (txId : list byte) (h : N),
      CIdentity_GetNameID identity = idID ->
      fst (AddIdentity ks' identity txId h) = true).
Proof.
  intros ks'. subst ks'. unfold RemoveIdentity, GetIdentityAndHistory. simpl.
  split; [done|]. split; [by apply HaveIdentity_false, lookup_delete_eq|].
  split; [intros k Hk; by rewrite lookup_delete_ne|].
  split; [intros Habsent%HaveIdentity_false; by rewrite delete_id, set_mapIdentities_same|].
  split; [by rewrite delete_delete_eq|].
  intros identity txId h <-. unfold AddIdentity. simpl.
  rewrite bool_decide_eq_false_2; [done|]. rewrite lookup_delete_eq. by intros [? ?].
Qed.

(** X14.  [AddUpdateIdentityAndHistory] returns [true] in every case.
    A record that is not valid, or has no entry, is dropped and the
    store is as it was.  A valid record with entries is filed, whole,
    under the name ID of the identity of its first entry, replacing what
    was on file there; every other ID is untouched. *)
Theorem AddUpdateIdentityAndHistory_result
        (ks : CBasicKeyStore) (record : CIdentityWithHistory) :
  let ks' := snd (AddUpdateIdentityAndHistory ks record) in
  fst (AddUpdateIdentityAndHistory ks record) = true /\
  (CIdentityWithHistory_IsValid record = false \/ ids record = [] -> ks' = ks) /\
  (forall (h : N) (earliest : CIdentity) (rest : list (N * CIdentity)),
      CIdentityWithHistory_IsValid record = true ->
      ids record = (h, earliest) :: rest ->
      GetIdentityAndHistory ks' (CIdentity_GetNameID earliest) = Some record /\
      forall k, k <> CIdentity_GetNameID earliest ->
                GetIdentityAndHistory ks' k = GetIdentityAndHistory ks k).
Proof.
  intros ks'. subst ks'. unfold AddUpdateIdentityAndHistory, GetIdentityAndHistory.
  split; [|split].
  - destruct (CIdentityWithHistory_IsValid record && _); [|done].
    by destruct (head (ids record)) as [[? ?]|].
  - intros [->| ->]; [done|]. by rewrite andb_false_r.
  - intros h earliest rest -> ->. simpl.
    split; [by rewrite lookup_insert_eq|]. intros k Hk. by rewrite lookup_insert_ne.
Qed.

(** X15.  The store-level [UpdateIdentity] touches the identity map
    under the name ID of the identity and nothing else: every other ID
    and every other member of the store is as before, and a call that
    returns [false] leaves the whole store as it was. *)
Theorem UpdateIdentity_store_frame
        (ks ks' : CBasicKeyStore) (identity : CIdentity) (txId : list byte) (h : N)
        (r : bool) :
  UpdateIdentity ks identity txId h = Some (r, ks') ->
  (forall k, k <> CIdentity_GetNameID identity ->
             GetIdentityAndHistory ks' k = GetIdentityAndHistory ks k) /\
  hdSeed ks' = hdSeed ks /\ mapScripts ks' = mapScripts ks /\
  mapSaplingSpendingKeys ks' = mapSaplingSpendingKeys ks /\
  mapSaplingFullViewingKeys ks' = mapSaplingFullViewingKeys ks /\
  mapSaplingIncomingViewingKeys ks' = mapSaplingIncomingViewingKeys ks /\
  (r = false -> ks' = ks).
Proof.
  unfold UpdateIdentity, GetIdentityAndHistory.
  destruct (mapIdentities ks !! CIdentity_GetNameID identity) as [history|].
  - destruct (CIdentityWithHistory_UpdateIdentity history identity txId h) as [[inner history']|];
      [|done].
    intros [= <- <-]. simpl. repeat split; try done.
    intros k Hk. by rewrite lookup_insert_ne.
  - by intros [= <- <-].
Qed.


Lemma do_call_other_members (ks ks' : CBasicKeyStore) (c : identity_call) :
  do_call ks c = Some ks' ->
  hdSeed ks' = hdSeed ks /\ mapScripts ks' = mapScripts ks /\
  mapSaplingSpendingKeys ks' = mapSaplingSpendingKeys ks /\
  mapSaplingFullViewingKeys ks' = mapSaplingFullViewingKeys ks /\
  mapSaplingIncomingViewingKeys ks' = mapSaplingIncomingViewingKeys ks.
Proof.
  destruct c as [identity txId h|identity txId h|idID|record]; simpl.
  - unfold AddIdentity. case_bool_decide; by intros [= <-].
  - unfold UpdateIdentity.
    destruct (mapIdentities ks !! CIdentity_GetNameID identity) as [history|];
      [|by intros [= <-]].
    destruct (CIdentityWithHistory_UpdateIdentity history identity txId h) as [[? ?]|];
      [|done].
    by intros [= <-].
  - by intros [= <-].
  - unfold AddUpdateIdentityAndHistory.
    destruct (CIdentityWithHistory_IsValid record && _); [|by intros [= <-]].
    destruct (head (ids record)) as [[? ?]|]; by intros [= <-].
Qed.

(** X17.  No run of [AddIdentity], [UpdateIdentity], [RemoveIdentity]
    and [AddUpdateIdentityAndHistory] calls touches the seed, the script
    map or the Sapling maps. *)
Theorem identity_calls_frame (cs : list identity_call) (ks ks' : CBasicKeyStore) :
  run_calls ks cs = Some ks' ->
  hdSeed ks' = hdSeed ks /\ mapScripts ks' = mapScripts ks /\
  mapSaplingSpendingKeys ks' = mapSaplingSpendingKeys ks /\
  mapSaplingFullViewingKeys ks' = mapSaplingFullViewingKeys ks /\
  mapSaplingIncomingViewingKeys ks' = mapSaplingIncomingViewingKeys ks.
Proof.
  revert ks. induction cs as [|c rest IH]; intros ks; simpl.
  - by intros [= <-].
  - destruct (do_call ks c) as [ks1|] eqn:Hcall; [|done].
    intros Hrun.
    destruct (do_call_other_members _ _ _ Hcall) as (F1 & F2 & F3 & F4 & F5).
    destruct (IH _ Hrun) as (E1 & E2 & E3 & E4 & E5).
    repeat split; congruence.
Qed.

(** ** The seed slot and the script map *)

(** X18.  The three seed operations read one test, [IsNull] of the
    slot: [SetHDSeed] succeeds exactly when [HaveHDSeed] is [false] and
    changes nothing when it fails, and [GetHDSeed] fails exactly when
    [HaveHDSeed] is [false] and otherwise returns the slot. *)
Theorem HDSeed_operations_agree (ks : CBasicKeyStore) (seed : HDSeed) :
  fst (SetHDSeed ks seed) = negb (HaveHDSeed ks) /\
  (HaveHDSeed ks = true -> snd (SetHDSeed ks seed) = ks) /\
  (HaveHDSeed ks = false -> hdSeed (snd (SetHDSeed ks seed)) = seed) /\
  (GetHDSeed ks = None <-> HaveHDSeed ks = false) /\
  (forall s : HDSeed, GetHDSeed ks = Some s -> s = hdSeed ks /\ HaveHDSeed ks = true).
Proof.
  unfold SetHDSeed, HaveHDSeed, GetHDSeed.
  destruct (HDSeed_IsNull (hdSeed ks)); simpl; repeat split; try done; congruence.
Qed.

(** X19.  [AddCScript] returns [true] exactly for scripts of at most
    [MAX_SCRIPT_ELEMENT_SIZE] bytes (the limit itself is accepted), and
    a refused script leaves the store as it was. *)
Theorem AddCScript_size_limit (ks : CBasicKeyStore) (redeemScript : list byte) :
  (fst (AddCScript ks redeemScript) = true <->
   (length redeemScript <= MAX_SCRIPT_ELEMENT_SIZE)%nat) /\
  (fst (AddCScript ks redeemScript) = false -> snd (AddCScript ks redeemScript) = ks).
Proof.
  unfold AddCScript.
  destruct (Nat.ltb_spec MAX_SCRIPT_ELEMENT_SIZE (length redeemScript)); simpl.
  - split; [split; [done|lia]|done].
  - split; [split; [done|lia]|done].
Qed.

(** X20.  Two scripts that resolve to the same ID share one slot of the
    script map: after both are added the slot holds the one added
    last. *)
Theorem AddCScript_last_wins (ks : CBasicKeyStore) (s1 s2 : list byte) :
  (length s1 <= MAX_SCRIPT_ELEMENT_SIZE)%nat ->
  (length s2 <= MAX_SCRIPT_ELEMENT_SIZE)%nat ->
  ScriptOrIdentityID s1 = ScriptOrIdentityID s2 ->
  let ks2 := snd (AddCScript (snd (AddCScript ks s1)) s2) in
  GetCScript ks2 (ScriptOrIdentityID s1) = Some s2 /\
  HaveCScript ks2 (ScriptOrIdentityID s1) = true /\
  mapScripts ks2 = mapScripts (snd (AddCScript ks s2)).
Proof.
  intros H1 H2 Hid ks2. subst ks2. unfold AddCScript, GetCScript, HaveCScript.
  destruct (Nat.ltb_spec MAX_SCRIPT_ELEMENT_SIZE (length s1)); [lia|].
  destruct (Nat.ltb_spec MAX_SCRIPT_ELEMENT_SIZE (length s2)); [lia|].
  simpl. rewrite Hid, insert_insert_eq, lookup_insert_eq.
  split; [done|]. split; [|done]. by apply bool_decide_eq_true.
Qed.

(** X21.  [HaveCScript] is [true] exactly where [GetCScript] succeeds,
    and [AddCScript], accepted or not, changes the answer of neither at
    an ID other than the one the script resolves to. *)
Theorem AddCScript_other_ids (ks : CBasicKeyStore) (redeemScript hash : list byte) :
  hash <> ScriptOrIdentityID redeemScript ->
  GetCScript (snd (AddCScript ks redeemScript)) hash = GetCScript ks hash /\
  HaveCScript (snd (AddCScript ks redeemScript)) hash = HaveCScript ks hash /\
  (HaveCScript ks hash = true <-> exists scr, GetCScript ks hash = Some scr).
Proof.
  intros Hne. unfold AddCScript, GetCScript, HaveCScript.
  destruct (MAX_SCRIPT_ELEMENT_SIZE <? length redeemScript)%nat; simpl.
  - split; [done|]. split; [done|]. by rewrite bool_decide_eq_true.
  - rewrite lookup_insert_ne by done.
    split; [done|]. split; [done|]. by rewrite bool_decide_eq_true.
Qed.

(** ** Watch-only scripts *)

Lemma set_setWatchOnly_same (ko : CBasicKeyStore_other) :
  set_setWatchOnly ko (setWatchOnly ko) = ko.
Proof. by destruct ko. Qed.

(** X22.  [AddWatchOnly] and [RemoveWatchOnly] always return [true].
    After the first the script is watched and the store watches
    something; after the second the script is not watched; neither
    changes the answer for any other script. *)
Theorem WatchOnly_add_remove (ko : CBasicKeyStore_other) (dest : list byte) :
  fst (AddWatchOnly ko dest) = true /\
  HaveWatchOnly (snd (AddWatchOnly ko dest)) dest = true /\
  HaveWatchOnly_any (snd (AddWatchOnly ko dest)) = true /\
  fst (RemoveWatchOnly ko dest) = true /\
  HaveWatchOnly (snd (RemoveWatchOnly ko dest)) dest = false /\
  (forall d, d <> dest ->
             HaveWatchOnly (snd (AddWatchOnly ko dest)) d = HaveWatchOnly ko d /\
             HaveWatchOnly (snd (RemoveWatchOnly ko dest)) d = HaveWatchOnly ko d).
Proof.
  clear Hash Hash160 KOMODO_ASSETCHAIN_MAXLEN Seed Sapling Decoder Format.
  unfold AddWatchOnly, RemoveWatchOnly, HaveWatchOnly, HaveWatchOnly_any. simpl.
  split; [done|]. split; [apply bool_decide_eq_true; set_solver|].
  split; [rewrite bool_decide_eq_false_2; [done|set_solver]|].
  split; [done|]. split; [apply bool_decide_eq_false; set_solver|].
  intros d Hd. split; apply bool_decide_ext; set_solver.
Qed.

(** X23.  [HaveWatchOnly()] without an argument is [true] exactly when
    [HaveWatchOnly(dest)] is [true] for some script. *)
Theorem HaveWatchOnly_any_iff (ko : CBasicKeyStore_other) :
  HaveWatchOnly_any ko = true <-> exists dest, HaveWatchOnly ko dest = true.
Proof.
  clear Hash Hash160 KOMODO_ASSETCHAIN_MAXLEN Seed Sapling Decoder Format.
  unfold HaveWatchOnly_any, HaveWatchOnly. rewrite negb_true_iff, bool_decide_eq_false.
  split.
  - intros Hne. destruct (set_choose_L _ Hne) as [dest Hin].
    exists dest. by apply bool_decide_eq_true.
  - intros [dest Hin%bool_decide_eq_true]. set_solver.
Qed.

(** X24.  Adding a script that is not watched and removing it again
    gives back the store; adding a script twice is adding it once. *)
Theorem WatchOnly_add_then_remove (ko : CBasicKeyStore_other) (dest : list byte) :
  HaveWatchOnly ko dest = false ->
  snd (RemoveWatchOnly (snd (AddWatchOnly ko dest)) dest) = ko /\
  snd (AddWatchOnly (snd (AddWatchOnly ko dest)) dest) = snd (AddWatchOnly ko dest).
Proof.
  clear Hash Hash160 KOMODO_ASSETCHAIN_MAXLEN Seed Sapling Decoder Format.
  unfold HaveWatchOnly. intros Hnot%bool_decide_eq_false.
  unfold AddWatchOnly, RemoveWatchOnly, set_setWatchOnly. simpl. split.
  - replace (({[dest]} ∪ setWatchOnly ko) ∖ {[dest]}) with (setWatchOnly ko) by set_solver.
    by destruct ko.
  - by replace ({[dest]} ∪ ({[dest]} ∪ setWatchOnly ko)) with ({[dest]} ∪ setWatchOnly ko)
      by set_solver.
Qed.

(** ** Sprout keys *)

Lemma map_emplace_lookup `{Countable K} {V : Type} (k : K) (v : V) (m : gmap K V) :
  map_emplace k v m !! k = Some (default v (m !! k)).
Proof.
  unfold map_emplace. destruct (m !! k) as [w|] eqn:Hk; simpl; [done|].
  by rewrite lookup_insert_eq.
Qed.

Lemma map_emplace_present `{Countable K} {V : Type} (k : K) (v : V) (m : gmap K V) :
  is_Some (m !! k) -> map_emplace k v m = m.
Proof. unfold map_emplace. by intros [w ->]. Qed.

(** X25.  A viewing key added with [AddSproutViewingKey] is found under
    its address; [RemoveSproutViewingKey] takes it away again, but the
    note decryptor that the add registered for the address stays. *)
Theorem SproutViewingKey_add_remove (ko : CBasicKeyStore_other) (vk : SproutViewingKey) :
  let ko1 := snd (AddSproutViewingKey ko vk) in
  let ko2 := snd (RemoveSproutViewingKey ko1 vk) in
  GetSproutViewingKey ko1 (vk_address vk) = Some vk /\
  HaveSproutViewingKey ko1 (vk_address vk) = true /\
  GetSproutViewingKey ko2 (vk_address vk) = None /\
  HaveSproutViewingKey ko2 (vk_address vk) = false /\
  mapNoteDecryptors ko2 = mapNoteDecryptors ko1 /\
  is_Some (mapNoteDecryptors ko2 !! vk_address vk).
Proof.
  intros ko1 ko2. subst ko1 ko2.
  unfold AddSproutViewingKey, RemoveSproutViewingKey, GetSproutViewingKey,
    HaveSproutViewingKey. simpl.
  rewrite lookup_insert_eq, lookup_delete_eq, map_emplace_lookup.
  split; [done|]. split; [by apply bool_decide_eq_true|]. split; [done|].
  split; [apply bool_decide_eq_false; by intros [? ?]|]. by split.
Qed.

(** X26.  The note decryptor of an address is written once.  Both
    [AddSproutSpendingKey] and [AddSproutViewingKey] replace the key on
    file for the address, but leave a decryptor that is already there
    and register the one made from their own receiving key only when
    there is none. *)
Theorem NoteDecryptor_first_wins
        (ko : CBasicKeyStore_other) (sk : SproutSpendingKey) (vk : SproutViewingKey) :
  mapSproutSpendingKeys (snd (AddSproutSpendingKey ko sk)) !! sk_address sk = Some sk /\
  mapNoteDecryptors (snd (AddSproutSpendingKey ko sk)) !! sk_address sk =
    Some (default (ZCNoteDecryption_from (sk_receiving_key sk))
                  (mapNoteDecryptors ko !! sk_address sk)) /\
  mapSproutViewingKeys (snd (AddSproutViewingKey ko vk)) !! vk_address vk = Some vk /\
  mapNoteDecryptors (snd (AddSproutViewingKey ko vk)) !! vk_address vk =
    Some (default (ZCNoteDecryption_from (vk_sk_enc vk))
                  (mapNoteDecryptors ko !! vk_address vk)) /\
  (is_Some (mapNoteDecryptors ko !! sk_address sk) ->
   mapNoteDecryptors (snd (AddSproutSpendingKey ko sk)) = mapNoteDecryptors ko) /\
  (is_Some (mapNoteDecryptors ko !! vk_address vk) ->
   mapNoteDecryptors (snd (AddSproutViewingKey ko vk)) = mapNoteDecryptors ko).
Proof.
  unfold AddSproutSpendingKey, AddSproutViewingKey. simpl.
  rewrite !lookup_insert_eq, !map_emplace_lookup.
  repeat split; try done; apply map_emplace_present.
Qed.

(** ** Sapling keys *)

(** X27.  [AddSaplingIncomingViewingKey] always returns [true] and maps
    the address to the key given, whatever the address was mapped to
    before; other addresses keep their key. *)
Theorem AddSaplingIncomingViewingKey_replaces
        (ks : CBasicKeyStore) (ivk : SaplingIncomingViewingKey) (addr : SaplingPaymentAddress) :
  let ks' := snd (AddSaplingIncomingViewingKey ks ivk addr) in
  fst (AddSaplingIncomingViewingKey ks ivk addr) = true /\
  GetSaplingIncomingViewingKey ks' addr = Some ivk /\
  HaveSaplingIncomingViewingKey ks' addr = true /\
  (forall a, a <> addr ->
             GetSaplingIncomingViewingKey ks' a = GetSaplingIncomingViewingKey ks a).
Proof.
  intros ks'. subst ks'.
  unfold AddSaplingIncomingViewingKey, GetSaplingIncomingViewingKey,
    HaveSaplingIncomingViewingKey. simpl. rewrite lookup_insert_eq.
  split; [done|]. split; [done|]. split; [by apply bool_decide_eq_true|].
  intros a Ha. by rewrite lookup_insert_ne.
Qed.

(** X28.  [AddSaplingFullViewingKey] always returns [true]; afterwards
    the address leads to the incoming viewing key of the key given and
    that one to the key itself, both membership tests answer [true], and
    no spending key has been stored. *)
Theorem AddSaplingFullViewingKey_chain
        (ks : CBasicKeyStore) (fvk : SaplingFullViewingKey) (addr : SaplingPaymentAddress) :
  let ks' := snd (AddSaplingFullViewingKey ks fvk addr) in
  fst (AddSaplingFullViewingKey ks fvk addr) = true /\
  GetSaplingIncomingViewingKey ks' addr = Some (in_viewing_key fvk) /\
  GetSaplingFullViewingKey ks' (in_viewing_key fvk) = Some fvk /\
  HaveSaplingIncomingViewingKey ks' addr = true /\
  HaveSaplingFullViewingKey ks' (in_viewing_key fvk) = true /\
  mapSaplingSpendingKeys ks' = mapSaplingSpendingKeys ks.
Proof.
  intros ks'. subst ks'.
  unfold AddSaplingFullViewingKey, AddSaplingIncomingViewingKey,
    GetSaplingIncomingViewingKey, GetSaplingFullViewingKey,
    HaveSaplingIncomingViewingKey, HaveSaplingFullViewingKey. simpl.
  rewrite !lookup_insert_eq.
  repeat split; try done; by apply bool_decide_eq_true.
Qed.

(** X29.  Two spending keys added for one address: the address leads to
    the viewing keys of the second, under which the second spending key
    is stored, while the first key stays on file under its own viewing
    keys (as far as these differ from the second's), no address leading
    to it any more. *)
Theorem AddSaplingSpendingKey_same_address
        (ks : CBasicKeyStore) (sk1 sk2 : SaplingExtendedSpendingKey)
        (addr : SaplingPaymentAddress) :
  let fvk1 := full_viewing_key sk1 in
  let fvk2 := full_viewing_key sk2 in
  let ks2 := snd (AddSaplingSpendingKey (snd (AddSaplingSpendingKey ks sk1 addr)) sk2 addr) in
  GetSaplingIncomingViewingKey ks2 addr = Some (in_viewing_key fvk2) /\
  GetSaplingFullViewingKey ks2 (in_viewing_key fvk2) = Some fvk2 /\
  mapSaplingSpendingKeys ks2 !! fvk2 = Some sk2 /\
  (in_viewing_key fvk1 <> in_viewing_key fvk2 ->
   GetSaplingFullViewingKey ks2 (in_viewing_key fvk1) = Some fvk1) /\
  (fvk1 <> fvk2 -> mapSaplingSpendingKeys ks2 !! fvk1 = Some sk1).
Proof.
  intros fvk1 fvk2 ks2. subst fvk1 fvk2 ks2.
  unfold GetSaplingIncomingViewingKey, GetSaplingFullViewingKey. simpl.
  rewrite !lookup_insert_eq. repeat split; try done.
  - intros Hne. by rewrite lookup_insert_ne, lookup_insert_eq.
  - intros Hne. by rewrite lookup_insert_ne, lookup_insert_eq.
Qed.

(** ** Transparent keys *)

(** X30.  For a store whose [GetKey] reads [mapKeys], a key added with
    [AddKey] is found by [GetPubKey] under the ID of its own public key,
    which is returned; [GetPubKey] fails exactly where [GetKey] does,
    and the add changes its answer nowhere else. *)
Theorem AddKey_GetPubKey
        (GetKey : CBasicKeyStore_other -> CKeyID -> option CKey)
        (ko : CBasicKeyStore_other) (key : CKey) :
  (forall ko' a, GetKey ko' a = mapKeys ko' !! a) ->
  let id := CPubKey_GetID (CKey_GetPubKey key) in
  fst (AddKey ko key) = true /\
  GetPubKey GetKey (snd (AddKey ko key)) id = Some (CKey_GetPubKey key) /\
  (forall a, a <> id -> GetPubKey GetKey (snd (AddKey ko key)) a = GetPubKey GetKey ko a) /\
  (forall a, GetPubKey GetKey ko a = None <-> GetKey ko a = None).
Proof.
  intros HGetKey id. subst id. unfold AddKey, AddKeyPubKey, GetPubKey.
  split; [done|]. split; [|split].
  - rewrite HGetKey. simpl. by rewrite lookup_insert_eq.
  - intros a Ha. rewrite !HGetKey. simpl. by rewrite lookup_insert_ne.
  - intros a. by destruct (GetKey ko a).
Qed.

End KeyStore.

(** * Two names that differ past the cutoff *)

Section Cutoff.

Variable Hash : list byte -> list byte.
Variable Hash160 : list byte -> list byte.
Context `{Freed : FreedReads}.

(** C8 (the code at two names that differ past the cutoff).  With a
    label maximum of 65, the names [leaf.aa...ax] and [leaf.aa...ayz],
    whose second labels share their first 64 characters, parse to the
    same two labels, cut to 64 characters, and [CleanName] returns the
    same leaf for both.  The parents and the IDs are digests of reads
    through destroyed strings, one read for each name: in [CleanName] of
    the string that held the truncated label, in [GetNameID] of the
    string that held the whole name, which is not truncated.  Nothing
    relates the reads of the first name to those of the second. *)
Theorem truncation_at_cutoff :
  ParseSubNames 65 Sample.name_x = ["leaf"%string; Sample.long_label] /\
  ParseSubNames 65 Sample.name_y = ["leaf"%string; Sample.long_label] /\
  CleanName Hash Hash160 65 Sample.name_x uint160_null =
    ("leaf"%string,
     Hash160 (Hash (list_byte_of_string
                      (freed_c_str (AtCleanName 1) Sample.name_x uint160_null
                                   Sample.long_label)))) /\
  CleanName Hash Hash160 65 Sample.name_y uint160_null =
    ("leaf"%string,
     Hash160 (Hash (list_byte_of_string
                      (freed_c_str (AtCleanName 1) Sample.name_y uint160_null
                                   Sample.long_label)))) /\
  GetNameID Hash Hash160 65 Sample.name_x uint160_null =
    Hash160 (Hash (list_byte_of_string
                     (freed_c_str AtGetNameID Sample.name_x uint160_null Sample.name_x))) /\
  GetNameID Hash Hash160 65 Sample.name_y uint160_null =
    Hash160 (Hash (list_byte_of_string
                     (freed_c_str AtGetNameID Sample.name_y uint160_null Sample.name_y))).
Proof. repeat split; reflexivity. Qed.

End Cutoff.

(** * The code on the sample instances *)

Section Examples.

Import Sample.

(** C1 on a read that finds a NUL first: the ID of [Alice.Bob] is the
    digest of the hash of the empty range. *)
Example GetNameID_Alice_Bob_empty_read :
  GetNameID (Freed := freed_empty) H256 H160 65 "Alice.Bob" uint160_null = H160 (H256 []).
Proof. reflexivity. Qed.

(** C1 on a read that finds its string in place: the ID is the digest of
    the hash of [alice.bob], without the parent that [CleanName]
    accumulated. *)
Example GetNameID_Alice_Bob_intact_read :
  GetNameID H256 H160 65 "Alice.Bob" uint160_null =
  H160 (H256 (list_byte_of_string "alice.bob")).
Proof. reflexivity. Qed.

(** C2 on a read that finds a NUL first: the parent is the digest of the
    hash of the empty range, not of [bob]. *)
Lemma CleanName_Alice_Bob_witness :
  6 <= 65 <= 2 ^ 64 /\
  CleanName (Freed := freed_empty) H256 H160 65 "Alice.Bob" uint160_null =
  ("Alice"%string, H160 (H256 [])).
Proof.
  assert (Hmax : 6 <= 65 <= 2 ^ 64) by (split; [lia | by vm_compute]).
  split; [exact Hmax|].
  exact (CleanName_Alice_Bob (Freed := freed_empty) H256 H160 65 Hmax).
Defined.

(** C2 on a read that finds its string in place. *)
Example CleanName_Alice_Bob_intact_read :
  CleanName H256 H160 65 "Alice.Bob" uint160_null =
  ("Alice"%string, H160 (H256 (list_byte_of_string "bob"))).
Proof. reflexivity. Qed.

(** C3 on the history [{100, 105}]: height 110 evicts 100. *)
Lemma UpdateIdentity_two_entries_witness :
  (100 < 105)%N /\
  CIdentityWithHistory_UpdateIdentity two_versions carol txid 110 =
  Some (true, {| version := 1; flags := 1; ids := [(105%N, alice); (110%N, carol)] |}).
Proof.
  split; [lia|].
  apply (UpdateIdentity_two_entries 1 1 100 105 alice alice carol txid 110). lia.
Defined.

(** The second scenario of the specification, on one history: 100, then
    105, then 110, then the late 103, which is rejected. *)
Example history_scenario :
  let h0 := {| version := 1; flags := 1; ids := [(100%N, alice)] |} in
  let h2 := {| version := 1; flags := 1; ids := [(105%N, carol); (110%N, alice)] |} in
  update_all h0 [(carol, txid, 105%N); (alice, txid, 110%N)] = Some h2 /\
  CIdentityWithHistory_UpdateIdentity h2 carol txid 103 = Some (false, h2) /\
  CIdentityWithHistory_UpdateIdentity h2 carol txid 110 = Some (true, h2).
Proof. by vm_compute. Qed.

(** C4 from [AddIdentity] at height 100, updated at 105, 110 and 120. *)
Lemma history_bound_after_updates_witness :
  let calls := [(carol, txid, 105%N); (carol, txid, 110%N); (alice, txid, 120%N)] in
  let first := {| version := 1; flags := 1; ids := [(100%N, alice)] |} in
  AddIdentity H256 H160 65 store0 alice txid 100 =
    (true, set_mapIdentities store0 {[CIdentity_GetNameID H256 H160 65 alice := first]}) /\
  strictly_increasing (map snd calls) /\
  exists history' : CIdentityWithHistory,
    update_all first calls = Some history' /\
    (1 <= length (ids history') <= 2)%nat /\
    strictly_increasing (heights (ids history')).
Proof.
  intros calls first.
  assert (Hadd : AddIdentity H256 H160 65 store0 alice txid 100 =
                 (true, set_mapIdentities store0
                          {[CIdentity_GetNameID H256 H160 65 alice := first]}))
    by reflexivity.
  assert (Hcalls : strictly_increasing (map snd calls))
    by (repeat constructor; simpl; lia).
  split; [exact Hadd|]. split; [exact Hcalls|].
  apply (history_bound_after_updates H256 H160 65 store0 _ alice txid 100 first calls Hadd);
    [apply lookup_singleton_eq | exact Hcalls].
Defined.

(** C5 on the sample keys. *)
Example Sapling_roundtrip_sample :
  GetSaplingExtendedSpendingKey (snd (AddSaplingSpendingKey store0 5%N 9%N)) 9%N = Some 5%N /\
  GetSaplingExtendedSpendingKey store0 9%N = None.
Proof. by vm_compute. Qed.

(** C6 on a script that encodes the identity [Alice.Bob]. *)
Lemma AddCScript_storage_key_witness :
  (length alice_script <= MAX_SCRIPT_ELEMENT_SIZE)%nat /\
  identity_primary_condition alice_script = Some alice /\
  GetCScript (snd (AddCScript H256 H160 65 store0 alice_script))
             (CIdentity_GetNameID H256 H160 65 alice) = Some alice_script /\
  GetCScript (snd (AddCScript H256 H160 65 store0 alice_script))
             (CScriptID_of_script alice_script) = None.
Proof.
  assert (Hsize : (length alice_script <= MAX_SCRIPT_ELEMENT_SIZE)%nat)
    by (vm_compute; lia).
  destruct (AddCScript_storage_key H256 H160 65 store0 alice_script Hsize)
    as (_ & Hkey & Hraw).
  split; [exact Hsize|]. split; [reflexivity|]. split; [exact Hkey|].
  rewrite Hraw; [reflexivity|]. vm_compute. discriminate.
Defined.

(** C7, as it is stated, fails when the first seed is itself null: the
    first call returns [true], no seed can be read back, and a second
    call returns [true] again and stores its seed. *)
Lemma SetHDSeed_null_seed_twice :
  HDSeed_IsNull (hdSeed store0) = true /\
  SetHDSeed store0 [] = (true, store0) /\
  GetHDSeed (snd (SetHDSeed store0 [])) = None /\
  SetHDSeed (snd (SetHDSeed store0 [])) [x01] = (true, set_hdSeed store0 [x01]).
Proof. by vm_compute. Qed.

(** C7 with a first seed that is not null. *)
Lemma SetHDSeed_write_once_witness :
  HDSeed_IsNull (hdSeed store0) = true /\
  HDSeed_IsNull ([x01] : list byte) = false /\
  SetHDSeed_run store0 [[x01]; [x02]; []] =
    ([true; false; false], set_hdSeed store0 [x01]) /\
  GetHDSeed (set_hdSeed store0 [x01]) = Some [x01].
Proof.
  split; [reflexivity|]. split; [reflexivity|].
  apply (SetHDSeed_write_once store0 [x01] [[x02]; []]); reflexivity.
Defined.

(** C8 on reads that find a NUL first: the two names get one parent and
    one ID, the digest of the hash of the empty range. *)
Example truncation_empty_reads :
  snd (CleanName (Freed := freed_empty) H256 H160 65 name_x uint160_null) = H160 (H256 []) /\
  snd (CleanName (Freed := freed_empty) H256 H160 65 name_y uint160_null) = H160 (H256 []) /\
  GetNameID (Freed := freed_empty) H256 H160 65 name_x uint160_null = H160 (H256 []) /\
  GetNameID (Freed := freed_empty) H256 H160 65 name_y uint160_null = H160 (H256 []).
Proof. repeat split; reflexivity. Qed.

(** C8 on reads that find their strings in place: the two names get one
    parent and two IDs. *)
Example truncation_intact_reads :
  snd (CleanName H256 H160 65 name_x uint160_null) =
    snd (CleanName H256 H160 65 name_y uint160_null) /\
  GetNameID H256 H160 65 name_x uint160_null <> GetNameID H256 H160 65 name_y uint160_null.
Proof. split; [reflexivity|]. vm_compute. discriminate. Qed.

(** C9 on a store that holds [{100, 105}] for [alice]: an update at
    height 50 is rejected by the history and reported as [true] by the
    store. *)
Lemma UpdateIdentity_registry_result_witness :
  let ks := set_mapIdentities store0 {[CIdentity_GetNameID H256 H160 65 alice := two_versions]} in
  map_Forall (fun _ r => (1 <= length (ids r))%nat) (mapIdentities ks) /\
  CIdentityWithHistory_UpdateIdentity two_versions alice txid 50 = Some (false, two_versions) /\
  exists ks' : CBasicKeyStore, UpdateIdentity H256 H160 65 ks alice txid 50 = Some (true, ks').
Proof.
  intros ks.
  assert (Hone : map_Forall (fun _ r => (1 <= length (ids r))%nat) (mapIdentities ks))
    by (apply map_Forall_singleton; simpl; lia).
  split; [exact Hone|]. split; [reflexivity|].
  destruct (UpdateIdentity_registry_result H256 H160 65 ks alice txid 50 Hone)
    as (r & ks' & Hcall & _ & Hfound).
  destruct (Hfound two_versions (lookup_singleton_eq _ _)) as (_ & _ & _ & -> & _).
  by exists ks'.
Defined.

(** C10, as it is stated, fails: [AddUpdateIdentityAndHistory] stores a
    valid record of three versions whole. *)
Lemma AddUpdate_stores_three_versions :
  exists ks : CBasicKeyStore,
    run_calls H256 H160 65 store0 [CallAddUpdateIdentityAndHistory three_versions] = Some ks /\
    mapIdentities ks !! CIdentity_GetNameID H256 H160 65 alice = Some three_versions /\
    length (ids three_versions) = 3%nat.
Proof. eexists. split; [reflexivity|]. split; [apply lookup_insert_eq|reflexivity]. Qed.

(** C10 on a run of all four calls. *)
Lemma identity_histories_nonempty_witness :
  let cs := [CallAddIdentity alice txid 100; CallUpdateIdentity alice txid 105;
             CallUpdateIdentity carol txid 7; CallUpdateIdentity alice txid 110;
             CallRemoveIdentity (CIdentity_GetNameID H256 H160 65 carol);
             CallAddUpdateIdentityAndHistory two_versions] in
  mapIdentities store0 = ∅ /\
  exists ks : CBasicKeyStore,
    run_calls H256 H160 65 store0 cs = Some ks /\
    map_Forall (fun _ r => (1 <= length (ids r))%nat) (mapIdentities ks) /\
    map_Forall (fun _ r => (length (ids r) <= 2)%nat) (mapIdentities ks).
Proof.
  intros cs. split; [reflexivity|].
  destruct (identity_histories_nonempty H256 H160 65 store0 cs eq_refl)
    as (ks & Hrun & Hone & Htwo).
  exists ks. split; [exact Hrun|]. split; [exact Hone|].
  apply Htwo. repeat constructor; simpl; lia.
Defined.

(** ** Further properties on the sample instances *)

(** X2 on the first label of [a:b.c]. *)
Lemma ParseSubNames_labels_plain_witness :
  In "a_b"%string (ParseSubNames 65 "a:b.c") /\
  string_forall plain_char "a_b" = true /\
  Z.of_nat (String.length "a_b") <= label_cut 65.
Proof.
  assert (Hin : In "a_b"%string (ParseSubNames 65 "a:b.c")) by (left; reflexivity).
  split; [exact Hin|]. exact (ParseSubNames_labels_plain 65 "a:b.c" "a_b" Hin).
Defined.

(** X3 on the truncated second label of [name_x]. *)
Lemma ParseSubNames_idempotent_witness :
  In long_label (ParseSubNames 65 name_x) /\
  ParseSubNames 65 long_label = [long_label].
Proof.
  assert (Hin : In long_label (ParseSubNames 65 name_x)) by (right; left; reflexivity).
  split; [exact Hin|]. exact (ParseSubNames_idempotent 65 name_x long_label Hin).
Defined.

(** X4 on a single label with an invalid character. *)
Lemma CleanName_single_label_witness :
  count_separators "Al:ce" = O /\
  CleanName H256 H160 65 "Al:ce" txid = ("Al_ce"%string, txid).
Proof.
  split; [reflexivity|].
  exact (CleanName_single_label H256 H160 65 "Al:ce" txid eq_refl).
Defined.

(** X5 on three labels. *)
Example ParseSubNames_two_parts_sample :
  ParseSubNames 65 "a.b@c" = ["a"; "b"; "c"]%string /\
  ParseSubNames 65 "b@c" = ["b"; "c"]%string /\
  fst (CleanName H256 H160 65 "a.b@c" uint160_null) = "a"%string.
Proof. by vm_compute. Qed.

(** X6 on two spellings of one name. *)
Lemma labels_case_insensitive_witness :
  to_lower_copy "Alice.Bob" = to_lower_copy "ALICE.bob" /\
  map to_lower_copy (ParseSubNames 65 "Alice.Bob") =
  map to_lower_copy (ParseSubNames 65 "ALICE.bob") /\
  to_lower_copy (fst (CleanName H256 H160 65 "Alice.Bob" uint160_null)) =
  to_lower_copy (fst (CleanName H256 H160 65 "ALICE.bob" uint160_null)).
Proof.
  split; [reflexivity|].
  exact (labels_case_insensitive H256 H160 65 "Alice.Bob" "ALICE.bob" uint160_null eq_refl).
Defined.

(** X8 on [{100, 105}] and the height 50. *)
Lemma UpdateIdentity_false_unchanged_witness :
  CIdentityWithHistory_UpdateIdentity two_versions carol txid 50 = Some (false, two_versions) /\
  two_versions = two_versions /\
  (2 <= length (ids two_versions))%nat /\
  exists (first : N) (a : CIdentity),
    head (ids two_versions) = Some (first, a) /\ (50 <= first)%N.
Proof.
  split; [reflexivity|].
  exact (UpdateIdentity_false_unchanged two_versions two_versions carol txid 50 eq_refl).
Defined.

(** X9 on [{100, 105}] and the height 110: the entry at 105 stays. *)
Lemma UpdateIdentity_keeps_latest_witness :
  let after := {| version := 1; flags := 1; ids := [(105%N, alice); (110%N, carol)] |} in
  last (ids two_versions) = Some (105%N, alice) /\
  CIdentityWithHistory_UpdateIdentity two_versions carol txid 110 = Some (true, after) /\
  In (105%N, alice) (ids after).
Proof.
  intros after. split; [reflexivity|]. split; [reflexivity|].
  exact (UpdateIdentity_keeps_latest two_versions after carol txid 110 true (105%N, alice)
           eq_refl eq_refl).
Defined.

(** X10 on the same call. *)
Lemma UpdateIdentity_true_height_on_file_witness :
  let after := {| version := 1; flags := 1; ids := [(105%N, alice); (110%N, carol)] |} in
  CIdentityWithHistory_UpdateIdentity two_versions carol txid 110 = Some (true, after) /\
  In 110%N (heights (ids after)).
Proof.
  intros after. split; [reflexivity|].
  exact (UpdateIdentity_true_height_on_file two_versions after carol txid 110 eq_refl).
Defined.

(** X11 on a history of three entries, at its middle height: the lowest
    entry goes and nothing is inserted. *)
Lemma UpdateIdentity_never_grows_witness :
  ids three_versions <> [] /\
  CIdentityWithHistory_UpdateIdentity three_versions carol txid 2 =
    Some (true, {| version := 1; flags := 1; ids := [(2%N, alice); (3%N, alice)] |}) /\
  exists (r : bool) (self' : CIdentityWithHistory),
    CIdentityWithHistory_UpdateIdentity three_versions carol txid 2 = Some (r, self') /\
    (1 <= length (ids self') <= Nat.max 2 (length (ids three_versions)))%nat /\
    (strictly_increasing (heights (ids three_versions)) ->
     strictly_increasing (heights (ids self'))) /\
    version self' = version three_versions /\ flags self' = flags three_versions.
Proof.
  assert (Hne : ids three_versions <> []) by discriminate.
  split; [exact Hne|]. split; [reflexivity|].
  exact (UpdateIdentity_never_grows three_versions carol txid 2 Hne).
Defined.

(** X15 on a store that holds histories for [alice] and [carol],
    updated for [alice]. *)
Lemma UpdateIdentity_store_frame_witness :
  let carol_id := CIdentity_GetNameID H256 H160 65 carol in
  let ks := set_mapIdentities store0
              (<[carol_id := {| version := 1; flags := 1; ids := [(1%N, carol)] |}]>
                 {[CIdentity_GetNameID H256 H160 65 alice := two_versions]}) in
  exists ks' : CBasicKeyStore,
    UpdateIdentity H256 H160 65 ks alice txid 110 = Some (true, ks') /\
    GetIdentityAndHistory ks' carol_id = GetIdentityAndHistory ks carol_id /\
    mapScripts ks' = mapScripts ks.
Proof.
  intros carol_id ks.
  assert (Hcall : exists ks' : CBasicKeyStore,
             UpdateIdentity H256 H160 65 ks alice txid 110 = Some (true, ks'))
    by (vm_compute; eexists; reflexivity).
  destruct Hcall as [ks' Hcall]. exists ks'. split; [exact Hcall|].
  destruct (UpdateIdentity_store_frame H256 H160 65 ks ks' alice txid 110 true Hcall)
    as (Hother & _ & Hscripts & _).
  split; [|exact Hscripts]. apply Hother. vm_compute. discriminate.
Defined.


(** X17 on a run over a store with a script on file. *)
Lemma identity_calls_frame_witness :
  let ks := snd (AddCScript H256 H160 65 store0 alice_script) in
  let cs := [CallAddIdentity alice txid 100; CallUpdateIdentity alice txid 105;
             CallAddUpdateIdentityAndHistory three_versions;
             CallRemoveIdentity (CIdentity_GetNameID H256 H160 65 alice)] in
  exists ks' : CBasicKeyStore,
    run_calls H256 H160 65 ks cs = Some ks' /\
    mapScripts ks' = mapScripts ks /\ hdSeed ks' = hdSeed ks.
Proof.
  intros ks cs.
  assert (Hrun : exists ks' : CBasicKeyStore, run_calls H256 H160 65 ks cs = Some ks')
    by (vm_compute; eexists; reflexivity).
  destruct Hrun as [ks' Hrun]. exists ks'. split; [exact Hrun|].
  destruct (identity_calls_frame H256 H160 65 cs ks ks' Hrun) as (Hseed & Hscripts & _).
  by split.
Defined.

(** X20 on the two spellings of the script of [alice]. *)
Lemma AddCScript_last_wins_witness :
  (length alice_script <= MAX_SCRIPT_ELEMENT_SIZE)%nat /\
  (length alice_script_caps <= MAX_SCRIPT_ELEMENT_SIZE)%nat /\
  ScriptOrIdentityID H256 H160 65 alice_script = ScriptOrIdentityID H256 H160 65 alice_script_caps /\
  GetCScript (snd (AddCScript H256 H160 65 (snd (AddCScript H256 H160 65 store0 alice_script))
                              alice_script_caps))
             (ScriptOrIdentityID H256 H160 65 alice_script) = Some alice_script_caps.
Proof.
  assert (H1 : (length alice_script <= MAX_SCRIPT_ELEMENT_SIZE)%nat) by (vm_compute; lia).
  assert (H2 : (length alice_script_caps <= MAX_SCRIPT_ELEMENT_SIZE)%nat) by (vm_compute; lia).
  assert (Hid : ScriptOrIdentityID H256 H160 65 alice_script =
                ScriptOrIdentityID H256 H160 65 alice_script_caps) by reflexivity.
  split; [exact H1|]. split; [exact H2|]. split; [exact Hid|].
  exact (proj1 (AddCScript_last_wins H256 H160 65 store0 alice_script alice_script_caps
                  H1 H2 Hid)).
Defined.

(** X21 on the hash-based ID of the script of [alice], which the script
    is not stored under. *)
Lemma AddCScript_other_ids_witness :
  CScriptID_of_script alice_script <> ScriptOrIdentityID H256 H160 65 alice_script /\
  GetCScript (snd (AddCScript H256 H160 65 store0 alice_script))
             (CScriptID_of_script alice_script) = None /\
  HaveCScript (snd (AddCScript H256 H160 65 store0 alice_script))
              (CScriptID_of_script alice_script) = false.
Proof.
  assert (Hne : CScriptID_of_script alice_script <>
                ScriptOrIdentityID H256 H160 65 alice_script)
    by (vm_compute; discriminate).
  destruct (AddCScript_other_ids H256 H160 65 store0 alice_script _ Hne) as (Hget & Hhave & _).
  split; [exact Hne|]. split; [by rewrite Hget | by rewrite Hhave].
Defined.

(** X24 on the empty store. *)
Lemma WatchOnly_add_then_remove_witness :
  HaveWatchOnly other0 alice_script = false /\
  snd (RemoveWatchOnly (snd (AddWatchOnly other0 alice_script)) alice_script) = other0 /\
  HaveWatchOnly_any (snd (AddWatchOnly other0 alice_script)) = true.
Proof.
  assert (Hnot : HaveWatchOnly other0 alice_script = false) by reflexivity.
  split; [exact Hnot|].
  split; [exact (proj1 (WatchOnly_add_then_remove other0 alice_script Hnot))|].
  reflexivity.
Defined.

(** X26: a viewing key and then a spending key for one address; the
    decryptor stays the one made from the viewing key. *)
Example NoteDecryptor_viewing_then_spending :
  let ko := snd (AddSproutSpendingKey (snd (AddSproutViewingKey other0 7%N)) 107%N) in
  vk_address 7%N = sk_address 107%N /\
  mapSproutSpendingKeys ko !! 7%N = Some 107%N /\
  mapSproutViewingKeys ko !! 7%N = Some 7%N /\
  mapNoteDecryptors ko !! 7%N = Some (ZCNoteDecryption_from (vk_sk_enc 7%N)).
Proof. by vm_compute. Qed.

(** X30 with [GetKey] the lookup in [mapKeys]. *)
Lemma AddKey_GetPubKey_witness :
  (forall (ko' : CBasicKeyStore_other) (a : CKeyID),
      (fun ko a => mapKeys ko !! a) ko' a = mapKeys ko' !! a) /\
  GetPubKey (fun ko a => mapKeys ko !! a) (snd (AddKey other0 21%N)) 42%N = Some 42%N /\
  GetPubKey (fun ko a => mapKeys ko !! a) (snd (AddKey other0 21%N)) 43%N = None.
Proof.
  assert (HGetKey : forall (ko' : CBasicKeyStore_other) (a : CKeyID),
             (fun ko a => mapKeys ko !! a) ko' a = mapKeys ko' !! a) by reflexivity.
  destruct (AddKey_GetPubKey (fun ko a => mapKeys ko !! a) other0 21%N HGetKey)
    as (_ & Hown & Hother & _).
  split; [exact HGetKey|]. split; [exact Hown|].
  rewrite (Hother 43%N); [reflexivity|discriminate].
Defined.

End Examples.
